(** * The Imagen chat handler of [imagen_bot_poe.py] and [imagne3_peo_test.py]

    A shallow embedding of the request handler [ImageResponsePoeBot.get_response]
    in its two versions:

    - [GCS/imagen_bot_poe.py]: every generated image is uploaded to a bucket
      and answered with a signed link, with the binary attachment as the
      fallback of the upload;
    - [out_gcp/imagne3_peo_test.py]: every generated image is attached.

    Both versions start with the same lines: the last chat turn is read, an
    empty prompt is refused, and the directive [--number_of_images=n] is
    looked for with [re.search], clamped, and deleted with [re.sub].

    Python strings are lists of characters.  A character is a code point
    below 256, on which the classes [\s] and [\d] of the [re] module and the
    white space of [str.strip] are the sets written out below. *)

From Stdlib Require Import Ascii String DecimalString.
From Stdlib Require Import ZArith Lia Bool Arith List.
From Equations Require Import Equations.
Import ListNotations.

(** ** Strings *)

Definition pystr : Type := list ascii.

(** A literal of the source. *)
Definition str (s : string) : pystr := list_ascii_of_string s.
Arguments str s%_string.

(** [a in b] of Python, on the specification side. *)
Definition contains (b a : pystr) : Prop :=
  exists pre post, b = pre ++ a ++ post.

(** [str.isspace] for one character, which is also the class [\s]:
    U+0009..U+000D, U+001C..U+0020, U+0085 and U+00A0. *)
Definition is_space (c : ascii) : bool :=
  let n := nat_of_ascii c in
  ((9 <=? n) && (n <=? 13)) || ((28 <=? n) && (n <=? 32))
  || (n =? 133) || (n =? 160).

(** The class [\d]: below 256 the decimal digits are [0] to [9]. *)
Definition is_digit (c : ascii) : bool :=
  let n := nat_of_ascii c in (48 <=? n) && (n <=? 57).

Definition digit_value (c : ascii) : Z := Z.of_nat (nat_of_ascii c) - 48.

(** [str(n)] of a natural number. *)
Definition str_of_nat (n : nat) : pystr :=
  str (NilZero.string_of_uint (Nat.to_uint n)).

(** A raised exception: whether it is an instance of [Exception] (an
    [asyncio.CancelledError], a [KeyboardInterrupt] or a [SystemExit] is
    not), and [str(e)]. *)
Record exn : Type := mkExn {
  is_Exception : bool;
  message : pystr }.

Inductive result (A : Type) : Type :=
| Ok (a : A)
| Raise (e : exn).
Arguments Ok {A} a.
Arguments Raise {A} e.

(** The number that a run of digits writes; an integer of Python has no
    bound. *)
Definition value (ds : pystr) : Z :=
  fold_left (fun acc c => (10 * acc + digit_value c)%Z) ds 0%Z.

(** [sys.get_int_max_str_digits()], as the interpreter sets it. *)
Definition int_max_str_digits : nat := 4300.

(** The [ValueError] of [int] on a string of more digits than that. *)
Definition too_many_digits (ds : pystr) : exn :=
  mkExn true
    (str "Exceeds the limit (4300 digits) for integer string conversion: value has "
     ++ str_of_nat (length ds)
     ++ str " digits; use sys.set_int_max_str_digits() to increase the limit").

(** [int(s)] for a run of digits [s]: the interpreter refuses to convert
    more than [int_max_str_digits] digits, zeros in front included. *)
Definition int (ds : pystr) : result Z :=
  if int_max_str_digits <? length ds then Raise (too_many_digits ds)
  else Ok (value ds).

(** The longest prefix of [s] in the class [f], and what follows it: how a
    greedy [f*] consumes its input. *)
Fixpoint span (f : ascii -> bool) (s : pystr) : pystr * pystr :=
  match s with
  | [] => ([], [])
  | c :: s' =>
      if f c then let (run, rest) := span f s' in (c :: run, rest)
      else ([], s)
  end.

Definition lstrip (s : pystr) : pystr := snd (span is_space s).
Definition rstrip (s : pystr) : pystr := rev (lstrip (rev s)).

(** [s.strip()] *)
Definition strip (s : pystr) : pystr := rstrip (lstrip s).

(** [s.replace(" ", "_")] *)
Definition replace_space (s : pystr) : pystr :=
  map (fun c => if Ascii.eqb c " "%char then "_"%char else c) s.

(** [s[:n]] for [n >= 0] *)
Definition slice_to (n : nat) (s : pystr) : pystr := firstn n s.

(** [str(z)] of an integer, as an f-string prints it. *)
Definition str_of_Z (z : Z) : pystr :=
  str (NilZero.string_of_int (Z.to_int z)).

(** ** The regular expression [--number_of_images\s*=\s*(\d+)] *)

Definition flag : pystr := str "--number_of_images".

(** [s] with the literal [p] taken off its front. *)
Fixpoint strip_prefix (p s : pystr) : option pystr :=
  match p, s with
  | [], _ => Some s
  | a :: p', b :: s' => if Ascii.eqb a b then strip_prefix p' s' else None
  | _ :: _, [] => None
  end.

(** The pattern matched at the first character of [s]: group 1 and the text
    after the match.  The classes of the three greedy runs and the [=]
    between them are disjoint, so that the match is found without
    backtracking. *)
Definition match_here (s : pystr) : option (pystr * pystr) :=
  match strip_prefix flag s with
  | None => None
  | Some s1 =>
      match lstrip s1 with
      | "="%char :: s2 =>
          match span is_digit (lstrip s2) with
          | ([], _) => None
          | (ds, rest) => Some (ds, rest)
          end
      | _ => None
      end
  end.

(** A match object: the text before the match, group 1, the text after. *)
Record Match : Type := mkMatch {
  before : pystr;
  group1 : pystr;
  after : pystr }.

(** [re.search(pattern, s)]: the leftmost match. *)
Fixpoint re_search (s : pystr) : option Match :=
  match match_here s with
  | Some (ds, rest) => Some (mkMatch [] ds rest)
  | None =>
      match s with
      | [] => None
      | c :: s' =>
          match re_search s' with
          | Some m => Some (mkMatch (c :: before m) (group1 m) (after m))
          | None => None
          end
      end
  end.

Lemma strip_prefix_length p s r :
  strip_prefix p s = Some r -> length s = length p + length r.
Proof.
  revert s; induction p as [|a p IH]; intros [|b s]; simpl; intros H;
    try discriminate.
  - injection H as <-; reflexivity.
  - injection H as <-; reflexivity.
  - destruct (Ascii.eqb a b); [|discriminate]. f_equal; auto.
Qed.

Lemma span_length f s : length (fst (span f s)) + length (snd (span f s)) = length s.
Proof.
  induction s as [|c s IH]; simpl; auto.
  destruct (f c); simpl; auto. destruct (span f s); simpl in *; lia.
Qed.

Lemma match_here_shorter s ds rest :
  match_here s = Some (ds, rest) -> length rest < length s.
Proof.
  unfold match_here, lstrip.
  destruct (strip_prefix flag s) as [s1|] eqn:E1; [|discriminate].
  apply strip_prefix_length in E1.
  pose proof (span_length is_space s1) as L1.
  destruct (snd (span is_space s1)) as [|c s2]; [discriminate|].
  destruct (Ascii.eqb_spec c "="%char) as [->|N].
  2:{ intros H. exfalso.
      destruct c as [[] [] [] [] [] [] [] []]; try discriminate; apply N; reflexivity. }
  pose proof (span_length is_space s2) as L2.
  pose proof (span_length is_digit (snd (span is_space s2))) as L3.
  destruct (span is_digit (snd (span is_space s2))) as [[|d ds'] r]; [discriminate|].
  intros H; injection H as <- <-. simpl in *. lia.
Qed.

Lemma re_search_shorter s m :
  re_search s = Some m -> length (after m) < length s.
Proof.
  revert m; induction s as [|c s IH]; intros m; simpl.
  - discriminate.
  - destruct (match_here (c :: s)) as [[ds r]|] eqn:E.
    + apply match_here_shorter in E. intros H; injection H as <-; simpl in *; lia.
    + destruct (re_search s) as [m'|]; [|discriminate].
      intros H; injection H as <-; simpl. specialize (IH m' eq_refl). lia.
Qed.

Definition inspect {A : Type} (a : A) : { b : A | a = b } := exist _ a eq_refl.

(** [re.split(pattern, s)] without the groups: the pieces of [s] that lie
    between the matches, found from left to right, each search starting
    where the last match ended. *)
Equations? re_split (s : pystr) : list pystr by wf (length s) lt :=
  re_split s with inspect (re_search s) := {
    | exist _ None _ := [s];
    | exist _ (Some m) E := before m :: re_split (after m) }.
Proof. apply re_search_shorter; assumption. Defined.

(** [re.sub(pattern, "", s)]: the pieces joined again. *)
Definition re_sub (s : pystr) : pystr := concat (re_split s).

(** ** Lines 63 to 80: the directive *)

(** The clamp of lines 72 to 77. *)
Definition clamp (n : Z) : Z :=
  if (n <=? 0)%Z then 1%Z else if (n >? 4)%Z then 4%Z else n.

(** Lines 63 to 80: [(last_message, number_of_images)] after line 80, or
    what [int] raises on line 70. *)
Definition parse_directive (last_message : pystr) : result (pystr * Z) :=
  match re_search last_message with
  | Some m =>
      match int (group1 m) with
      | Ok n => Ok (strip (re_sub last_message), clamp n)
      | Raise e => Raise e
      end
  | None => Ok (last_message, 1%Z)
  end.

(** What line 80 leaves in [last_message], and the prompt where no
    directive was found. *)
Definition cleaned (last_message : pystr) : pystr :=
  match re_search last_message with
  | Some _ => strip (re_sub last_message)
  | None => last_message
  end.

(** What lines 64 to 77 leave in [number_of_images] when line 70 does not
    raise. *)
Definition count (last_message : pystr) : Z :=
  match re_search last_message with
  | Some m => clamp (value (group1 m))
  | None => 1%Z
  end.

(** Line 70 does not raise on the prompt, so that the handler reaches the
    call of the model on line 87: the prompt holds no directive, or its
    leftmost directive has at most 4300 digits ([parses_iff]). *)
Definition parses (last_message : pystr) : Prop :=
  parse_directive last_message = Ok (cleaned last_message, count last_message).


(** ** What the specification calls a directive *)

(** The text of a directive: the flag, white space, [=], white space and a
    run of digits that is not empty. *)
Definition directive (ws1 ws2 ds : pystr) : pystr :=
  flag ++ ws1 ++ "="%char :: ws2 ++ ds.

Record directive_parts (ws1 ws2 ds : pystr) : Prop := mkParts {
  parts_ws1 : forallb is_space ws1 = true;
  parts_ws2 : forallb is_space ws2 = true;
  parts_digits : forallb is_digit ds = true;
  parts_nonempty : ds <> [] }.

Definition is_directive (d : pystr) : Prop :=
  exists ws1 ws2 ds, d = directive ws1 ws2 ds /\ directive_parts ws1 ws2 ds.

(** The prompt contains a count directive. *)
Definition has_directive (s : pystr) : Prop :=
  exists d, is_directive d /\ contains s d.

(** ** The regular expression against the words of the specification *)

Section Span.
Variable f : ascii -> bool.

Lemma span_eq s : fst (span f s) ++ snd (span f s) = s.
Proof.
  induction s as [|c s IH]; simpl; auto.
  destruct (f c); simpl; auto.
  destruct (span f s); simpl in *; congruence.
Qed.

Lemma span_all s : forallb f (fst (span f s)) = true.
Proof.
  induction s as [|c s IH]; simpl; auto.
  destruct (f c) eqn:E; simpl; auto.
  destruct (span f s); simpl in *. rewrite E; auto.
Qed.

Lemma span_stop s c r : snd (span f s) = c :: r -> f c = false.
Proof.
  induction s as [|a s IH]; simpl; [discriminate|].
  destruct (f a) eqn:E.
  - destruct (span f s); simpl in *; auto.
  - simpl. intros H; injection H as <- <-; auto.
Qed.

Lemma span_app run s :
  forallb f run = true ->
  span f (run ++ s) = (run ++ fst (span f s), snd (span f s)).
Proof.
  induction run as [|c run IH]; simpl; intros H.
  - destruct (span f s); reflexivity.
  - apply andb_prop in H as [Hc Hr]. rewrite Hc, (IH Hr). reflexivity.
Qed.

Lemma span_stuck s : (forall c r, s = c :: r -> f c = false) -> span f s = ([], s).
Proof.
  destruct s as [|c r]; simpl; auto.
  intros H. rewrite (H c r eq_refl). reflexivity.
Qed.

End Span.

Lemma strip_prefix_app p r : strip_prefix p (p ++ r) = Some r.
Proof.
  induction p as [|a p IH]; simpl; auto.
  rewrite Ascii.eqb_refl. exact IH.
Qed.

Lemma strip_prefix_eq p s r : strip_prefix p s = Some r -> s = p ++ r.
Proof.
  revert s; induction p as [|a p IH]; intros s; simpl.
  - intros H; injection H as <-; reflexivity.
  - destruct s as [|b s]; [discriminate|].
    destruct (Ascii.eqb_spec a b) as [->|]; [|discriminate].
    intros H. rewrite (IH _ H). reflexivity.
Qed.

Lemma digit_not_space c : is_digit c = true -> is_space c = false.
Proof.
  unfold is_digit, is_space. set (n := nat_of_ascii c).
  intros H. apply andb_prop in H as [H1 H2].
  apply Nat.leb_le in H1, H2.
  repeat (apply orb_false_iff; split);
    try (apply andb_false_iff; right; apply Nat.leb_gt; lia);
    apply Nat.eqb_neq; lia.
Qed.

(** A match at the front of [s] is a directive followed by a character that
    is no digit. *)
Lemma match_here_sound s ds rest :
  match_here s = Some (ds, rest) ->
  exists ws1 ws2,
    s = directive ws1 ws2 ds ++ rest /\ directive_parts ws1 ws2 ds /\
    (forall c r, rest = c :: r -> is_digit c = false).
Proof.
  unfold match_here, lstrip.
  destruct (strip_prefix flag s) as [s1|] eqn:E1; [|discriminate].
  apply strip_prefix_eq in E1.
  pose proof (span_eq is_space s1) as Q1.
  pose proof (span_all is_space s1) as A1.
  destruct (snd (span is_space s1)) as [|c s2] eqn:R1; [discriminate|].
  destruct (Ascii.eqb_spec c "="%char) as [->|N].
  2:{ intros H. exfalso.
      destruct c as [[] [] [] [] [] [] [] []]; try discriminate; apply N; reflexivity. }
  pose proof (span_eq is_space s2) as Q2.
  pose proof (span_all is_space s2) as A2.
  pose proof (span_eq is_digit (snd (span is_space s2))) as Q3.
  pose proof (span_all is_digit (snd (span is_space s2))) as A3.
  pose proof (span_stop is_digit (snd (span is_space s2))) as S3.
  destruct (span is_digit (snd (span is_space s2))) as [[|d ds'] r]; [discriminate|].
  intros H; injection H as <- <-. simpl fst in *; simpl snd in *.
  exists (fst (span is_space s1)), (fst (span is_space s2)).
  split; [|split].
  - unfold directive. rewrite E1, <- Q1, <- Q2 at 1. rewrite <- Q3.
    rewrite <- !app_assoc. simpl. rewrite <- !app_assoc. reflexivity.
  - constructor; auto. discriminate.
  - intros c r' ->. eapply S3. reflexivity.
Qed.

(** Where a directive stands at the front, the pattern matches, and the
    group takes the digits that follow it as well. *)
Lemma match_here_complete ws1 ws2 ds post :
  directive_parts ws1 ws2 ds ->
  match_here (directive ws1 ws2 ds ++ post)
  = Some (ds ++ fst (span is_digit post), snd (span is_digit post)).
Proof.
  intros [H1 H2 H3 H4]. unfold match_here, directive, lstrip.
  rewrite <- app_assoc, strip_prefix_app.
  rewrite <- app_assoc, (span_app _ _ _ H1). simpl.
  rewrite <- app_assoc, (span_app _ _ _ H2).
  rewrite (span_stuck is_space (ds ++ post)).
  2:{ intros c r E. destruct ds as [|d ds]; [contradiction|].
      simpl in E, H3. injection E as <- _. apply andb_prop in H3 as [H3 _].
      apply digit_not_space; assumption. }
  simpl. rewrite (span_app _ _ _ H3).
  destruct ds as [|d ds]; [contradiction|]. reflexivity.
Qed.

Lemma match_here_mono p t : match_here p <> None -> match_here (p ++ t) <> None.
Proof.
  destruct (match_here p) as [[ds rest]|] eqn:E; [intros _|congruence].
  apply match_here_sound in E as (ws1 & ws2 & -> & P & _).
  rewrite <- app_assoc, (match_here_complete _ _ _ _ P). discriminate.
Qed.

(** [re.search] finds a directive, and the text before it. *)
Lemma re_search_sound s m :
  re_search s = Some m ->
  exists ws1 ws2,
    s = before m ++ directive ws1 ws2 (group1 m) ++ after m /\
    directive_parts ws1 ws2 (group1 m) /\
    (forall c r, after m = c :: r -> is_digit c = false).
Proof.
  revert m; induction s as [|c s IH]; intros m; simpl; [discriminate|].
  destruct (match_here (c :: s)) as [[ds r]|] eqn:E.
  - intros H; injection H as <-. simpl. apply match_here_sound; assumption.
  - destruct (re_search s) as [m'|]; [|discriminate].
    intros H; injection H as <-. simpl.
    destruct (IH m' eq_refl) as (ws1 & ws2 & Q & P & F).
    exists ws1, ws2. rewrite Q at 1. auto.
Qed.

Lemma re_search_app pre s : re_search s <> None -> re_search (pre ++ s) <> None.
Proof.
  intros H. induction pre as [|c pre IH]; simpl; auto.
  destruct (match_here (c :: pre ++ s)) as [[ds r]|]; [discriminate|].
  destruct (re_search (pre ++ s)); [discriminate|contradiction].
Qed.

Lemma re_search_complete s : has_directive s -> re_search s <> None.
Proof.
  intros (d & (ws1 & ws2 & ds & -> & P) & pre & post & ->).
  apply re_search_app.
  destruct (directive ws1 ws2 ds ++ post) as [|c r] eqn:E.
  - destruct ws1; discriminate E.
  - simpl. rewrite <- E, (match_here_complete _ _ _ _ P). discriminate.
Qed.

(** The search fails exactly on the prompts without a directive. *)
Theorem re_search_None_iff s : re_search s = None <-> ~ has_directive s.
Proof.
  split.
  - intros E H. apply re_search_complete in H. contradiction.
  - intros H. destruct (re_search s) as [m|] eqn:E; auto.
    exfalso; apply H. apply re_search_sound in E as (ws1 & ws2 & Q & P & _).
    exists (directive ws1 ws2 (group1 m)). split.
    + exists ws1, ws2, (group1 m); auto.
    + exists (before m), (after m); assumption.
Qed.

(** No directive stands in the text before the leftmost match. *)
Lemma re_search_before s m : re_search s = Some m -> re_search (before m) = None.
Proof.
  revert m; induction s as [|c s IH]; intros m; simpl; [discriminate|].
  destruct (match_here (c :: s)) as [[ds r]|] eqn:E.
  - intros H; injection H as <-. reflexivity.
  - destruct (re_search s) as [m'|] eqn:E'; [|discriminate].
    intros H; injection H as <-. simpl.
    rewrite (IH m' eq_refl).
    destruct (match_here (c :: before m')) as [[ds r]|] eqn:E2; auto.
    exfalso. apply re_search_sound in E' as (ws1 & ws2 & Q & _).
    assert (M : match_here (c :: before m') <> None) by congruence.
    apply (match_here_mono _ (directive ws1 ws2 (group1 m') ++ after m')) in M.
    rewrite <- app_comm_cons, <- Q in M. contradiction.
Qed.

(** The pieces that [re.sub] keeps hold no directive. *)
Lemma re_split_pieces s : Forall (fun piece => re_search piece = None) (re_split s).
Proof.
  funelim (re_split s); constructor; try assumption.
  - eapply re_search_before; eassumption.
  - constructor.
Qed.

Lemma re_split_eq s :
  re_split s = match re_search s with
               | None => [s]
               | Some m => before m :: re_split (after m)
               end.
Proof.
  funelim (re_split s);
    match goal with E : re_search _ = _ |- _ => rewrite E end; reflexivity.
Qed.

(** ** Line 70 *)

Lemma parse_directive_eq s :
  parse_directive s
  = match re_search s with
    | Some m =>
        if int_max_str_digits <? length (group1 m)
        then Raise (too_many_digits (group1 m))
        else Ok (cleaned s, count s)
    | None => Ok (cleaned s, count s)
    end.
Proof.
  unfold parse_directive, cleaned, count, int.
  destruct (re_search s) as [m|]; [|reflexivity].
  destruct (int_max_str_digits <? length (group1 m)); reflexivity.
Qed.

(** What the parser returns is the cleaned prompt and the count. *)
Lemma parse_directive_Ok s last_message number_of_images :
  parse_directive s = Ok (last_message, number_of_images) ->
  last_message = cleaned s /\ number_of_images = count s.
Proof.
  rewrite parse_directive_eq.
  destruct (re_search s) as [m|];
    [destruct (int_max_str_digits <? length (group1 m)); [discriminate|]|];
    intros H; injection H as <- <-; auto.
Qed.

(** What the parser raises is the [ValueError] of a directive of more than
    4300 digits. *)
Lemma parse_directive_Raise s e :
  parse_directive s = Raise e ->
  exists m, re_search s = Some m /\ int_max_str_digits < length (group1 m) /\
            e = too_many_digits (group1 m).
Proof.
  rewrite parse_directive_eq.
  destruct (re_search s) as [m|]; [|discriminate].
  destruct (Nat.ltb_spec int_max_str_digits (length (group1 m))) as [L|L];
    [|discriminate].
  intros H; injection H as <-. eauto.
Qed.

Lemma parse_directive_Exception s e :
  parse_directive s = Raise e -> is_Exception e = true.
Proof.
  intros H. apply parse_directive_Raise in H as (m & _ & _ & ->). reflexivity.
Qed.

Lemma parses_None s : re_search s = None -> parses s.
Proof. intros H. unfold parses. rewrite parse_directive_eq, H. reflexivity. Qed.

Lemma parses_short s m :
  re_search s = Some m -> length (group1 m) <= int_max_str_digits -> parses s.
Proof.
  intros H L. unfold parses. rewrite parse_directive_eq, H.
  destruct (Nat.ltb_spec int_max_str_digits (length (group1 m))); [lia|reflexivity].
Qed.

(** ** The collaborators *)

Definition bytes : Type := list Byte.byte.

(** [IndexError] of an index on an empty list. *)
Definition IndexError : exn := mkExn true (str "list index out of range").

(** The PIL image of a generated image: what [save(image_bytes,
    format='JPEG')] writes, or raises. *)
Record PilImage : Type := mkPil {
  save : result bytes }.

(** A generated image; [hasattr(img_obj, '_pil_image')] is false on [None]. *)
Record GeneratedImage : Type := mkImage {
  _pil_image : option PilImage }.

Record ProtocolMessage : Type := mkMessage {
  content : pystr }.

Record QueryRequest : Type := mkRequest {
  query : list ProtocolMessage;
  message_id : pystr }.

(** What is outside the handler.  The calls made for one image take the
    position of the image in the batch first, so that a collaborator may
    answer every call differently. *)
Record World : Type := mkWorld {
  (** [image_model.generate_images(prompt, number_of_images, "en", "1:1")] *)
  generate_images : pystr -> Z -> result (list GeneratedImage);
  (** the index [random.choice] draws for character [j] of the name of image [i] *)
  random_choice : nat -> nat -> nat;
  (** [bucket.blob(name).upload_from_file(image_bytes, 'image/jpeg')] *)
  upload_from_file : nat -> pystr -> bytes -> result unit;
  (** [generate_signed_url(bucket_name, name)], lines 105 to 130 *)
  generate_signed_url : nat -> pystr -> result pystr;
  (** [self.post_message_attachment(message_id, file_data, filename)] *)
  post_message_attachment : nat -> pystr -> bytes -> pystr -> result unit }.

(** ** The generator *)

(** What a run of the handler does, in order. *)
Inductive event : Type :=
| generating (prompt : pystr) (number_of_images : Z)
| uploaded (blob_name : pystr) (data : bytes)
| attached (filename : pystr) (file_data : bytes)
| response (text : pystr).

(** A piece of the body of the generator: the events so far, and a value or
    the exception that ended it. *)
Definition gen (A : Type) : Type := list event * result A.

Definition ret {A : Type} (a : A) : gen A := ([], Ok a).

Definition bind {A B : Type} (m : gen A) (k : A -> gen B) : gen B :=
  match m with
  | (tr, Ok a) => let (tr', r) := k a in (tr ++ tr', r)
  | (tr, Raise e) => (tr, Raise e)
  end.

Definition emit (ev : event) : gen unit := ([ev], Ok tt).

(** A call of a collaborator. *)
Definition call {A : Type} (r : result A) : gen A := ([], r).

(** [try: body] with a bare [except: handler] *)
Definition try_except {A : Type} (body handler : gen A) : gen A :=
  match body with
  | (tr, Raise _) => let (tr', r) := handler in (tr ++ tr', r)
  | done => done
  end.

(** [try: body] with [except Exception as e: handler] *)
Definition try_except_Exception {A : Type} (body : gen A) (handler : exn -> gen A) : gen A :=
  match body with
  | (tr, Raise e) =>
      if is_Exception e then let (tr', r) := handler e in (tr ++ tr', r)
      else (tr, Raise e)
  | done => done
  end.

Declare Scope gen_scope.
Delimit Scope gen_scope with gen.
Notation "x <- m ;; k" := (bind m (fun x => k))
  (at level 61, m at next level, right associativity) : gen_scope.
Notation "m ;; k" := (bind m (fun _ => k))
  (at level 61, right associativity) : gen_scope.
Local Open Scope gen_scope.

(** [yield fp.PartialResponse(text=text)] *)
Definition yield (text : pystr) : gen unit := emit (response text).

(** ** The lines that both files share *)

(** [request.query[-1].content], line 56 *)
Definition last_content (request : QueryRequest) : result pystr :=
  match rev (query request) with
  | [] => Raise IndexError
  | turn :: _ => Ok (content turn)
  end.

Definition quote : pystr := ["034"%char].

(** Lines 145 and 146 *)
Definition filename_of (last_message : pystr) (index : nat) : pystr :=
  let sanitized_prompt := replace_space (slice_to 10 last_message) in
  sanitized_prompt ++ str "_image_" ++ str_of_nat (index + 1) ++ str ".jpg".

(** The text of line 177, which is line 113 of the second file. *)
Definition summary (number_of_images : Z) (last_message : pystr) : pystr :=
  str_of_Z number_of_images ++ str " image(s) generated by Imagen3 attached for "
  ++ quote ++ last_message ++ quote ++ str ".".

Definition no_images : pystr :=
  str "No images were generated. Please modify your prompt or try again later.".

Definition prompt_required : pystr := str "Prompt is required".

(** The text of the last line of both handlers. *)
Definition error_text (e : exn) : pystr := str "Error: " ++ message e.

(** Lines 56 to 97 around the loop [publishing], which is what the two files
    differ in. *)
Definition handler (w : World)
    (publishing : pystr -> Z -> list GeneratedImage -> gen unit)
    (request : QueryRequest) : gen unit :=
  last_message <- call (last_content request) ;;
  match last_message with
  | [] => yield prompt_required
  | _ :: _ =>
      parsed <- call (parse_directive last_message) ;;
      let (last_message, number_of_images) := parsed in
      emit (generating last_message number_of_images) ;;
      images <- call (generate_images w last_message number_of_images) ;;
      if length images =? 0 then yield no_images
      else publishing last_message number_of_images images
  end.

(** ** [GCS/imagen_bot_poe.py] *)

Module GCS.

Definition letters_and_digits : pystr :=
  str "abcdefghijklmnopqrstuvwxyzABCDEFGHIJKLMNOPQRSTUVWXYZ0123456789".

(** Lines 100 to 102, for the image at [index]. *)
Definition generate_random_string (w : World) (index : nat) : pystr :=
  map (fun i => nth (random_choice w index i mod 62) letters_and_digits "a"%char)
      (seq 0 24).

Definition random_filename (w : World) (index : nat) : pystr :=
  generate_random_string w index ++ str ".jpg".

(** Line 162 *)
Definition markdown_image (filename signed_url : pystr) : pystr :=
  str "![Generated Image_" ++ filename ++ str "](" ++ signed_url ++ str ")".

(** Lines 151 to 177: the upload and the link, and the attachment when
    either raises. *)
Definition publish (w : World) (request : QueryRequest)
    (last_message : pystr) (number_of_images : Z)
    (index : nat) (image_bytes : bytes) : gen unit :=
  let filename := filename_of last_message index in
  let random_filename := random_filename w index in
  try_except
    (call (upload_from_file w index random_filename image_bytes) ;;
     emit (uploaded random_filename image_bytes) ;;
     signed_url <- call (generate_signed_url w index random_filename) ;;
     yield (markdown_image filename signed_url))
    (call (post_message_attachment w index (message_id request) image_bytes filename) ;;
     emit (attached filename image_bytes) ;;
     yield (summary number_of_images last_message)).

(** Lines 132 to 177: the loop over [enumerate(images)], from [index] on. *)
Fixpoint publish_all (w : World) (request : QueryRequest)
    (last_message : pystr) (number_of_images : Z)
    (index : nat) (images : list GeneratedImage) : gen unit :=
  match images with
  | [] => ret tt
  | img_obj :: images' =>
      match _pil_image img_obj with
      | None => ret tt
      | Some generated_image =>
          image_bytes <- call (save generated_image) ;;
          publish w request last_message number_of_images index image_bytes
      end ;;
      publish_all w request last_message number_of_images (S index) images'
  end.

(** Lines 52 to 177: the body of the outer [try]. *)
Definition body (w : World) (request : QueryRequest) : gen unit :=
  handler w (fun last_message number_of_images images =>
               publish_all w request last_message number_of_images 0 images)
          request.

(** Lines 51 to 181 *)
Definition get_response (w : World) (request : QueryRequest) : gen unit :=
  try_except_Exception (body w request) (fun e => yield (error_text e)).

End GCS.

(** ** [out_gcp/imagne3_peo_test.py] *)

Module OutGcp.

(** Lines 89 to 110 *)
Fixpoint attach_all (w : World) (request : QueryRequest)
    (last_message : pystr) (index : nat) (images : list GeneratedImage) : gen unit :=
  match images with
  | [] => ret tt
  | img_obj :: images' =>
      match _pil_image img_obj with
      | None => ret tt
      | Some generated_image =>
          image_bytes <- call (save generated_image) ;;
          let filename := filename_of last_message index in
          call (post_message_attachment w index (message_id request) image_bytes filename) ;;
          emit (attached filename image_bytes)
      end ;;
      attach_all w request last_message (S index) images'
  end.

(** Lines 41 to 113: the body of the [try]. *)
Definition body (w : World) (request : QueryRequest) : gen unit :=
  handler w (fun last_message number_of_images images =>
               attach_all w request last_message 0 images ;;
               yield (summary number_of_images last_message))
          request.

(** Lines 40 to 117 *)
Definition get_response (w : World) (request : QueryRequest) : gen unit :=
  try_except_Exception (body w request) (fun e => yield (error_text e)).

End OutGcp.

(** ** What the chat sees *)

(** The attachments and the responses, in the order they reach the chat. *)
Definition delivered (tr : list event) : list event :=
  filter (fun ev => match ev with attached _ _ | response _ => true | _ => false end) tr.

Definition responses (tr : list event) : list pystr :=
  flat_map (fun ev => match ev with response text => [text] | _ => [] end) tr.

Definition attachments (tr : list event) : list (pystr * bytes) :=
  flat_map (fun ev => match ev with attached f d => [(f, d)] | _ => [] end) tr.

Definition generations (tr : list event) : list (pystr * Z) :=
  flat_map (fun ev => match ev with generating p n => [(p, n)] | _ => [] end) tr.

(** The request of one turn. *)
Definition ask (prompt : string) : QueryRequest :=
  mkRequest [mkMessage (str prompt)] (str "m1").

Definition jpeg (data : bytes) : GeneratedImage := mkImage (Some (mkPil (Ok data))).

Definition two_jpegs : list GeneratedImage := [jpeg [Byte.x00]; jpeg [Byte.x01]].

(** An image object without the attribute [_pil_image]. *)
Definition no_pixels : GeneratedImage := mkImage None.

Definition cat_in_space : pystr := str "a cat --number_of_images=7 in space".

Definition down : exn := mkExn true (str "503 Service Unavailable").

(** A world in which the model answers [images], the bucket is out of
    reach, and the chat takes every attachment. *)
Definition bucket_down (images : list GeneratedImage) : World :=
  mkWorld (fun _ _ => Ok images) (fun _ _ => 0)
          (fun _ _ _ => Raise down) (fun _ _ => Raise down)
          (fun _ _ _ _ => Ok tt).

Definition quota : exn := mkExn true (str "429 Quota exceeded").

(** A world in which the model refuses the request. *)
Definition model_down : World :=
  mkWorld (fun _ _ => Raise quota) (fun _ _ => 0)
          (fun _ _ _ => Ok tt) (fun _ _ => Raise down) (fun _ _ _ _ => Ok tt).

(** ** The generator, step by step *)

Lemma bind_call_Ok {A B : Type} (a : A) (k : A -> gen B) : bind (call (Ok a)) k = k a.
Proof. unfold bind, call. destruct (k a); reflexivity. Qed.

Lemma bind_emit {B : Type} (ev : event) (k : unit -> gen B) :
  bind (emit ev) k = (ev :: fst (k tt), snd (k tt)).
Proof. unfold bind, emit. destruct (k tt); reflexivity. Qed.

Lemma bind_ret {A B : Type} (a : A) (k : A -> gen B) : bind (ret a) k = k a.
Proof. unfold bind, ret. destruct (k a); reflexivity. Qed.

Lemma bind_Ok {A B : Type} (tr : list event) (a : A) (k : A -> gen B) :
  bind (tr, Ok a) k = (tr ++ fst (k a), snd (k a)).
Proof. unfold bind. destruct (k a); reflexivity. Qed.

Lemma try_Exception (tr : list event) (e : exn) :
  is_Exception e = true ->
  try_except_Exception (tr, Raise e) (fun e => yield (error_text e))
  = (tr ++ [response (error_text e)], Ok tt).
Proof. intros H. unfold try_except_Exception. rewrite H. reflexivity. Qed.

Lemma try_other {A : Type} (tr : list event) (e : exn) (h : exn -> gen A) :
  is_Exception e = false ->
  try_except_Exception (tr, Raise e) h = (tr, Raise e).
Proof. intros H. unfold try_except_Exception. rewrite H. reflexivity. Qed.

(** The handler of a request whose last turn holds a prompt, as far as the
    call of the model. *)
Lemma handler_prompt w publishing request prompt :
  last_content request = Ok prompt -> prompt <> [] -> parses prompt ->
  handler w publishing request
  = (emit (generating (cleaned prompt) (count prompt)) ;;
     images <- call (generate_images w (cleaned prompt) (count prompt)) ;;
     if length images =? 0 then yield no_images
     else publishing (cleaned prompt) (count prompt) images).
Proof.
  intros H N P. unfold handler. rewrite H, bind_call_Ok.
  destruct prompt as [|c p]; [contradiction|].
  rewrite P, bind_call_Ok. reflexivity.
Qed.

(** The handler of a request on whose prompt line 70 raises. *)
Lemma handler_raises w publishing request prompt e :
  last_content request = Ok prompt -> prompt <> [] ->
  parse_directive prompt = Raise e ->
  handler w publishing request = ([], Raise e).
Proof.
  intros H N P. unfold handler. rewrite H, bind_call_Ok.
  destruct prompt as [|c p]; [contradiction|].
  rewrite P. reflexivity.
Qed.

(** The handler once the model has answered with images. *)
Lemma handler_images w publishing request prompt images :
  last_content request = Ok prompt -> prompt <> [] -> parses prompt ->
  generate_images w (cleaned prompt) (count prompt) = Ok images ->
  images <> [] ->
  handler w publishing request
  = (generating (cleaned prompt) (count prompt)
       :: fst (publishing (cleaned prompt) (count prompt) images),
     snd (publishing (cleaned prompt) (count prompt) images)).
Proof.
  intros H N P G I.
  rewrite (handler_prompt _ _ _ _ H N P), bind_emit, G, bind_call_Ok.
  destruct images; [contradiction|]. reflexivity.
Qed.

Lemma last_content_last turns turn mid :
  last_content (mkRequest (turns ++ [turn]) mid) = Ok (content turn).
Proof. unfold last_content. simpl. rewrite rev_app_distr. reflexivity. Qed.

(** ** The parser on prompts without a hyphen *)

Lemma match_here_hyphen c s : c <> "-"%char -> match_here (c :: s) = None.
Proof.
  intros N. unfold match_here.
  change flag with ("-"%char :: tl flag). cbn [strip_prefix].
  destruct (Ascii.eqb_spec "-"%char c) as [E|_]; [congruence|reflexivity].
Qed.

Lemma re_search_no_hyphen s : ~ In "-"%char s -> re_search s = None.
Proof.
  induction s as [|c s IH]; intros H; [reflexivity|].
  simpl in H. cbn [re_search].
  rewrite match_here_hyphen by (intros ->; auto).
  rewrite IH by auto. reflexivity.
Qed.

Lemma space_not_hyphen s : forallb is_space s = true -> ~ In "-"%char s.
Proof.
  intros H I. rewrite forallb_forall in H. apply H in I. discriminate I.
Qed.

(** ** The prompt and its directive *)

(** The sentence of the specification on prompts without a directive. *)
Definition trimmed_without_directive (prompt : pystr) : Prop :=
  prompt <> [] -> ~ has_directive prompt ->
  parse_directive prompt = Ok (strip prompt, 1%Z).

(** Claim C3, as the code has it: for every prompt that contains no count
    directive the count is 1 and the cleaned prompt is the prompt itself,
    with the white space around it kept: [strip] is only called on line 80,
    when a directive was found. *)
Theorem no_directive_unchanged (prompt : pystr) :
  ~ has_directive prompt -> parse_directive prompt = Ok (prompt, 1%Z).
Proof.
  intros H. apply re_search_None_iff in H.
  unfold parse_directive. rewrite H. reflexivity.
Qed.

Lemma no_directive_unchanged_witness :
  ~ has_directive (str " cat ") /\
  parse_directive (str " cat ") = Ok (str " cat ", 1%Z).
Proof.
  assert (H : ~ has_directive (str " cat ")).
  { apply re_search_None_iff. vm_compute. reflexivity. }
  split; [exact H | exact (no_directive_unchanged (str " cat ") H)].
Defined.

(** Claim C3 as it is written fails on a prompt with white space around it:
    [" cat "] reaches the model as it is, not as ["cat"]. *)
Lemma not_trimmed_without_directive : ~ trimmed_without_directive (str " cat ").
Proof.
  intros H.
  assert (D : ~ has_directive (str " cat ")).
  { apply re_search_None_iff. vm_compute. reflexivity. }
  specialize (H ltac:(discriminate) D). vm_compute in H. discriminate H.
Qed.

(** ** The requests that are answered at once *)

(** Claim C7: when the content of the last message is the empty string, the
    handler yields the one response "Prompt is required" and does not call
    the model. *)
Theorem empty_prompt_required (w : World) (turns : list ProtocolMessage)
    (turn : ProtocolMessage) (mid : pystr) :
  content turn = [] ->
  GCS.get_response w (mkRequest (turns ++ [turn]) mid)
  = ([response (str "Prompt is required")], Ok tt)
  /\ generations (fst (GCS.get_response w (mkRequest (turns ++ [turn]) mid))) = [].
Proof.
  intros H.
  assert (E : GCS.get_response w (mkRequest (turns ++ [turn]) mid)
              = ([response (str "Prompt is required")], Ok tt)).
  { unfold GCS.get_response, GCS.body, handler.
    rewrite last_content_last, H, bind_call_Ok. reflexivity. }
  rewrite E. split; reflexivity.
Qed.

(** Claim C9: when the list of chat turns is empty, [request.query[-1]]
    raises [IndexError]; the outermost handler turns it into the one
    response "Error: list index out of range", and the model is not called. *)
Theorem no_turns_error (w : World) (request : QueryRequest) :
  query request = [] ->
  GCS.get_response w request
  = ([response (str "Error: list index out of range")], Ok tt)
  /\ generations (fst (GCS.get_response w request)) = []
  /\ responses (fst (GCS.get_response w request)) <> [prompt_required].
Proof.
  intros H.
  assert (E : GCS.get_response w request
              = ([response (str "Error: list index out of range")], Ok tt)).
  { unfold GCS.get_response, GCS.body, handler, last_content. rewrite H. reflexivity. }
  rewrite E. repeat split. discriminate.
Qed.

(** The model is called nowhere in the loop. *)
Lemma generations_app tr tr' : generations (tr ++ tr') = generations tr ++ generations tr'.
Proof. apply flat_map_app. Qed.

Lemma publish_generations w request last_message number_of_images index image_bytes :
  generations (fst (GCS.publish w request last_message number_of_images index image_bytes)) = [].
Proof.
  unfold GCS.publish.
  destruct (upload_from_file w index (GCS.random_filename w index) image_bytes) as [[]|e1];
    destruct (generate_signed_url w index (GCS.random_filename w index)) as [url|e2];
    destruct (post_message_attachment w index (message_id request) image_bytes
                (filename_of last_message index)) as [[]|e3];
    reflexivity.
Qed.

Lemma publish_all_generations w request last_message number_of_images images :
  forall index,
    generations (fst (GCS.publish_all w request last_message number_of_images index images)) = [].
Proof.
  induction images as [|img images IH]; intros index; [reflexivity|].
  cbn [GCS.publish_all].
  destruct (_pil_image img) as [pil|].
  - destruct (save pil) as [data|e]; [|reflexivity].
    rewrite bind_call_Ok.
    pose proof (publish_generations w request last_message number_of_images index data) as P.
    destruct (GCS.publish w request last_message number_of_images index data) as [tr [[]|e]];
      simpl in P.
    + rewrite bind_Ok. simpl. rewrite generations_app, P, IH. reflexivity.
    + exact P.
  - rewrite bind_ret. apply IH.
Qed.

Lemma try_generations (body : gen unit) :
  generations (fst (try_except_Exception body (fun e => yield (error_text e))))
  = generations (fst body).
Proof.
  destruct body as [tr [a|e]]; [reflexivity|].
  unfold try_except_Exception. destruct (is_Exception e); [|reflexivity].
  simpl. rewrite generations_app. simpl. apply app_nil_r.
Qed.

Lemma try_first (ev : event) (tr : list event) (r : result unit) :
  exists tr', fst (try_except_Exception (ev :: tr, r) (fun e => yield (error_text e)))
              = ev :: tr'.
Proof.
  destruct r as [a|e]; [exists tr; reflexivity|].
  unfold try_except_Exception. destruct (is_Exception e); simpl; eauto.
Qed.

(** A request with a prompt calls the model once, and before anything else. *)
Lemma prompt_generates w request prompt :
  last_content request = Ok prompt -> prompt <> [] -> parses prompt ->
  (exists tr, fst (GCS.get_response w request)
              = generating (cleaned prompt) (count prompt) :: tr)
  /\ generations (fst (GCS.get_response w request)) = [(cleaned prompt, count prompt)].
Proof.
  intros H N P. unfold GCS.get_response, GCS.body.
  rewrite try_generations, (handler_prompt _ _ _ _ H N P), bind_emit.
  split; [apply try_first|].
  cbn [fst generations flat_map app]. f_equal.
  destruct (generate_images w (cleaned prompt) (count prompt)) as [images|e];
    [|reflexivity].
  rewrite bind_call_Ok. destruct (length images =? 0); [reflexivity|].
  apply publish_all_generations.
Qed.

(** The parser on a prompt without a hyphen: no directive, the count 1. *)
Lemma parse_no_hyphen s : ~ In "-"%char s -> parse_directive s = Ok (s, 1%Z).
Proof.
  intros H. unfold parse_directive. rewrite (re_search_no_hyphen _ H). reflexivity.
Qed.

(** Claim C10: a prompt that is not empty and holds white space only is not
    refused.  The handler goes on to line 87 with that prompt, as it is, and
    the count 1: what it does next is what [generate_images], called once
    with that prompt and that count, makes it do: the response "No images
    were generated" when it returns no image, the response "Error:
    <message>" when it raises an instance of [Exception], and the loop over
    the images that it returns. *)
Theorem whitespace_prompt_generates (w : World) (turns : list ProtocolMessage)
    (turn : ProtocolMessage) (mid : pystr) :
  content turn <> [] -> forallb is_space (content turn) = true ->
  GCS.get_response w (mkRequest (turns ++ [turn]) mid)
  = try_except_Exception
      (emit (generating (content turn) 1) ;;
       images <- call (generate_images w (content turn) 1) ;;
       if length images =? 0 then yield no_images
       else GCS.publish_all w (mkRequest (turns ++ [turn]) mid) (content turn) 1 0 images)
      (fun e => yield (error_text e))
  /\ (generate_images w (content turn) 1 = Ok [] ->
      GCS.get_response w (mkRequest (turns ++ [turn]) mid)
      = ([generating (content turn) 1; response no_images], Ok tt))
  /\ (forall e,
         generate_images w (content turn) 1 = Raise e ->
         GCS.get_response w (mkRequest (turns ++ [turn]) mid)
         = if is_Exception e
           then ([generating (content turn) 1; response (error_text e)], Ok tt)
           else ([generating (content turn) 1], Raise e))
  /\ (exists tr, fst (GCS.get_response w (mkRequest (turns ++ [turn]) mid))
                 = generating (content turn) 1 :: tr)
  /\ generations (fst (GCS.get_response w (mkRequest (turns ++ [turn]) mid)))
     = [(content turn, 1%Z)].
Proof.
  intros N S.
  pose proof (parse_no_hyphen _ (space_not_hyphen _ S)) as P.
  pose proof (last_content_last turns turn mid) as L.
  destruct (parse_directive_Ok _ _ _ P) as [C1 C2].
  assert (Q : parses (content turn)) by (unfold parses; rewrite <- C1, <- C2; exact P).
  assert (E : GCS.get_response w (mkRequest (turns ++ [turn]) mid)
              = try_except_Exception
                  (emit (generating (content turn) 1) ;;
                   images <- call (generate_images w (content turn) 1) ;;
                   if length images =? 0 then yield no_images
                   else GCS.publish_all w (mkRequest (turns ++ [turn]) mid)
                          (content turn) 1 0 images)
                  (fun e => yield (error_text e))).
  { unfold GCS.get_response, GCS.body.
    rewrite (handler_prompt _ _ _ _ L N Q), <- C1, <- C2. reflexivity. }
  split; [exact E|]. split; [|split].
  - intros G. rewrite E, G. reflexivity.
  - intros e G. rewrite E, G. cbn. destruct (is_Exception e); reflexivity.
  - pose proof (prompt_generates w _ _ L N Q) as G.
    rewrite <- C1, <- C2 in G. exact G.
Qed.

Lemma whitespace_prompt_generates_witness :
  content (mkMessage (str "  ")) <> [] /\
  forallb is_space (content (mkMessage (str "  "))) = true /\
  GCS.get_response model_down (ask "  ")
  = ([generating (str "  ") 1; response (str "Error: 429 Quota exceeded")], Ok tt).
Proof.
  assert (N : content (mkMessage (str "  ")) <> []) by discriminate.
  assert (S : forallb is_space (content (mkMessage (str "  "))) = true) by reflexivity.
  split; [exact N|]. split; [exact S|].
  exact (proj1 (proj2 (proj2 (whitespace_prompt_generates model_down []
                                (mkMessage (str "  ")) (str "m1") N S)))
           quota eq_refl).
Defined.

Lemma empty_prompt_required_witness :
  content (mkMessage []) = [] /\
  GCS.get_response (bucket_down []) (ask "")
  = ([response (str "Prompt is required")], Ok tt).
Proof.
  split; [reflexivity|].
  exact (proj1 (empty_prompt_required (bucket_down []) [] (mkMessage [])
                  (str "m1") eq_refl)).
Defined.

Lemma no_turns_error_witness :
  query (mkRequest [] (str "m1")) = [] /\
  GCS.get_response (bucket_down []) (mkRequest [] (str "m1"))
  = ([response (str "Error: list index out of range")], Ok tt).
Proof.
  split; [reflexivity|].
  exact (proj1 (no_turns_error (bucket_down []) (mkRequest [] (str "m1")) eq_refl)).
Defined.

(** ** [strip] *)

Lemma lstrip_head s c r : lstrip s = c :: r -> is_space c = false.
Proof. apply span_stop. Qed.

Lemma lstrip_fixed s :
  (forall c r, s = c :: r -> is_space c = false) -> lstrip s = s.
Proof. intros H. unfold lstrip. rewrite span_stuck; auto. Qed.


(** What [rstrip] takes off is white space at the end. *)
Lemma rstrip_prefix s :
  exists ws, s = rstrip s ++ ws /\ forallb is_space ws = true.
Proof.
  exists (rev (fst (span is_space (rev s)))). split.
  - unfold rstrip, lstrip. rewrite <- rev_app_distr, span_eq, rev_involutive.
    reflexivity.
  - rewrite forallb_forall. intros c I. apply in_rev in I.
    pose proof (span_all is_space (rev s)) as A.
    rewrite forallb_forall in A. auto.
Qed.

Lemma rstrip_last s r c : rstrip s = r ++ [c] -> is_space c = false.
Proof.
  unfold rstrip. intros H. apply (f_equal (@rev ascii)) in H.
  rewrite rev_involutive, rev_app_distr in H. simpl in H.
  apply lstrip_head in H. exact H.
Qed.

Lemma strip_head s c r : strip s = c :: r -> is_space c = false.
Proof.
  unfold strip. intros H.
  destruct (rstrip_prefix (lstrip s)) as (ws & E & _).
  rewrite H in E. simpl in E. apply lstrip_head in E. exact E.
Qed.

Lemma strip_last s r c : strip s = r ++ [c] -> is_space c = false.
Proof. unfold strip. apply rstrip_last. Qed.

Lemma rstrip_fixed s :
  (forall r c, s = r ++ [c] -> is_space c = false) -> rstrip s = s.
Proof.
  intros H. unfold rstrip. rewrite lstrip_fixed.
  - apply rev_involutive.
  - intros c r E. apply (H (rev r) c).
    rewrite <- (rev_involutive s), E. reflexivity.
Qed.

(** [strip] leaves no white space at either end, and a second [strip]
    changes nothing. *)
Lemma strip_idempotent s : strip (strip s) = strip s.
Proof.
  unfold strip at 1.
  rewrite lstrip_fixed by (intros c r; apply strip_head).
  apply rstrip_fixed. intros r c. apply strip_last.
Qed.


(** ** The match that [re.search] returns *)

Lemma re_search_leftmost s m :
  re_search s = Some m ->
  forall k, k < length (before m) -> match_here (skipn k s) = None.
Proof.
  revert m; induction s as [|c s IH]; intros m; cbn [re_search]; [discriminate|].
  destruct (match_here (c :: s)) as [[ds r]|] eqn:E.
  - intros H; injection H as <-. intros k L. simpl in L. lia.
  - destruct (re_search s) as [m'|]; [|discriminate].
    intros H; injection H as <-. cbn [before length]. intros [|k] L.
    + exact E.
    + cbn [skipn]. apply (IH m' eq_refl). lia.
Qed.

(** ** The value of a run of digits *)

Lemma digit_value_range c : is_digit c = true -> (0 <= digit_value c <= 9)%Z.
Proof.
  unfold is_digit, digit_value. intros H. apply andb_prop in H as [H1 H2].
  apply Nat.leb_le in H1, H2. lia.
Qed.

Lemma value_from_nonneg ds :
  forallb is_digit ds = true ->
  forall acc, (0 <= acc)%Z ->
              (0 <= fold_left (fun acc c => (10 * acc + digit_value c)%Z) ds acc)%Z.
Proof.
  induction ds as [|d ds IH]; intros H acc A; [exact A|].
  simpl in H. apply andb_prop in H as [Hd Hds].
  cbn [fold_left]. apply IH; auto. pose proof (digit_value_range _ Hd). lia.
Qed.

Lemma value_nonneg ds : forallb is_digit ds = true -> (0 <= value ds)%Z.
Proof. intros H. apply value_from_nonneg; [exact H|lia]. Qed.

(** Zeros in front of the digits do not change the value. *)
Lemma value_leading_zeros k ds : value (repeat "0"%char k ++ ds) = value ds.
Proof.
  unfold value. rewrite fold_left_app.
  replace (fold_left (fun acc c => (10 * acc + digit_value c)%Z) (repeat "0"%char k) 0%Z)
    with 0%Z; [reflexivity|].
  induction k as [|k IH]; [reflexivity|]. simpl. exact IH.
Qed.

(** ** What [re.sub] leaves *)

(** [match.group(0)]: the text of the match [m] found in [s]. *)
Definition group0 (s : pystr) (m : Match) : pystr :=
  firstn (length s - length (before m) - length (after m)) (skipn (length (before m)) s).

(** The pieces of a prompt with the directives that stood between them. *)
Fixpoint weave (pieces dirs : list pystr) : pystr :=
  match pieces, dirs with
  | piece :: pieces', d :: dirs' => piece ++ d ++ weave pieces' dirs'
  | piece :: _, [] => piece
  | [], _ => []
  end.

Lemma re_search_directive s m :
  re_search s = Some m ->
  exists d, is_directive d /\ s = before m ++ d ++ after m.
Proof.
  intros E. apply re_search_sound in E as (ws1 & ws2 & Q & P & _).
  exists (directive ws1 ws2 (group1 m)). split; [|exact Q].
  exists ws1, ws2, (group1 m). auto.
Qed.

(** The prompt is its pieces with a directive between every two of them. *)
Lemma re_split_weave s :
  exists dirs,
    s = weave (re_split s) dirs /\ Forall is_directive dirs /\
    length (re_split s) = S (length dirs).
Proof.
  funelim (re_split s).
  - destruct H as (dirs & W & D & L).
    destruct (re_search_directive _ _ E) as (d & Hd & Q).
    exists (d :: dirs). repeat split.
    + cbn [weave]. rewrite <- W. exact Q.
    + constructor; assumption.
    + simpl. rewrite L. reflexivity.
  - exists []. repeat split. constructor.
Qed.

Lemma directive_length d : is_directive d -> 20 <= length d.
Proof.
  intros (ws1 & ws2 & ds & -> & [_ _ _ N]). unfold directive.
  rewrite !length_app. cbn [length]. rewrite length_app.
  destruct ds; [contradiction|]. change (length flag) with 18. simpl. lia.
Qed.

Lemma re_sub_length s : length (re_sub s) <= length s.
Proof.
  unfold re_sub. funelim (re_split s).
  - destruct (re_search_directive _ _ E) as (d & _ & Q).
    apply (f_equal (@length ascii)) in Q. rewrite !length_app in Q.
    cbn [concat]. rewrite length_app. lia.
  - simpl. rewrite app_nil_r. lia.
Qed.

(** A prompt with a directive loses at least its twenty characters. *)
Lemma re_sub_shorter s m :
  re_search s = Some m -> length (re_sub s) + 20 <= length s.
Proof.
  intros E. unfold re_sub. rewrite re_split_eq, E. cbn [concat].
  destruct (re_search_directive _ _ E) as (d & Hd & Q).
  apply directive_length in Hd.
  apply (f_equal (@length ascii)) in Q. rewrite !length_app in Q.
  rewrite length_app. pose proof (re_sub_length (after m)) as L.
  unfold re_sub in L. lia.
Qed.

Lemma lstrip_length s : length (lstrip s) <= length s.
Proof. unfold lstrip. pose proof (span_length is_space s). lia. Qed.

Lemma strip_length s : length (strip s) <= length s.
Proof.
  unfold strip, rstrip. rewrite length_rev.
  pose proof (lstrip_length (rev (lstrip s))) as L1.
  rewrite length_rev in L1. pose proof (lstrip_length s). lia.
Qed.

(** The cleaned prompt of a prompt with a directive is shorter. *)
Lemma cleaned_shorter s m :
  re_search s = Some m -> length (cleaned s) + 20 <= length s.
Proof.
  intros E. unfold cleaned. rewrite E.
  pose proof (strip_length (re_sub s)). pose proof (re_sub_shorter _ _ E). lia.
Qed.

Lemma clamp_range n : (1 <= clamp n <= 4)%Z.
Proof.
  unfold clamp. destruct (Z.leb_spec n 0); [lia|].
  destruct (Z.gtb_spec n 4); lia.
Qed.

(** The count is between 1 and 4, whatever the prompt. *)
Lemma count_range prompt : (1 <= count prompt <= 4)%Z.
Proof.
  unfold count. destruct (re_search prompt); [apply clamp_range|lia].
Qed.

(** ** The search in front of a directive *)

Lemma re_search_match s ds rest :
  match_here s = Some (ds, rest) -> re_search s = Some (mkMatch [] ds rest).
Proof. intros H. destruct s; cbn [re_search]; rewrite H; reflexivity. Qed.

(** The search passes over text without a hyphen and finds the directive
    that follows it. *)
Lemma re_search_at pre ws1 ws2 ds post :
  ~ In "-"%char pre -> directive_parts ws1 ws2 ds ->
  re_search (pre ++ directive ws1 ws2 ds ++ post)
  = Some (mkMatch pre (ds ++ fst (span is_digit post)) (snd (span is_digit post))).
Proof.
  intros H P. induction pre as [|c pre IH].
  - apply re_search_match, match_here_complete, P.
  - simpl in H. cbn [app re_search].
    rewrite match_here_hyphen by (intros ->; auto).
    rewrite IH by auto. reflexivity.
Qed.

(** ** The scan of [re.sub], in the words of the specification *)

(** The leftmost directive of [s], with all the digits that follow it: no
    directive begins further to the left, and no digit comes after it. *)
Record leftmost_directive (s pre ws1 ws2 ds post : pystr) : Prop := mkLeftmost {
  leftmost_split : s = pre ++ directive ws1 ws2 ds ++ post;
  leftmost_parts : directive_parts ws1 ws2 ds;
  leftmost_first :
    forall pre' d post',
      is_directive d -> s = pre' ++ d ++ post' -> length pre <= length pre';
  leftmost_digits : forall c r, post = c :: r -> is_digit c = false }.
Arguments leftmost_split {s pre ws1 ws2 ds post}.
Arguments leftmost_parts {s pre ws1 ws2 ds post}.

(** The directives that are deleted, from left to right, each one looked
    for in the text after the last one, and the pieces of text that are
    kept. *)
Inductive scan : pystr -> list pystr -> list pystr -> Prop :=
| scan_end s : ~ has_directive s -> scan s [s] []
| scan_next s pre ws1 ws2 ds post pieces dirs :
    leftmost_directive s pre ws1 ws2 ds post ->
    scan post pieces dirs ->
    scan s (pre :: pieces) (directive ws1 ws2 ds :: dirs).
Arguments scan_next {s pre ws1 ws2 ds post pieces dirs}.

Lemma skipn_length_app {A : Type} (l l' : list A) : skipn (length l) (l ++ l') = l'.
Proof. induction l; simpl; auto. Qed.

(** No directive begins before the match of [re.search]. *)
Lemma re_search_first s m :
  re_search s = Some m ->
  forall pre' d post',
    is_directive d -> s = pre' ++ d ++ post' -> length (before m) <= length pre'.
Proof.
  intros E pre' d post' (ws1 & ws2 & ds & -> & P) Q.
  destruct (Nat.le_gt_cases (length (before m)) (length pre')) as [L|L]; [exact L|].
  pose proof (re_search_leftmost _ _ E _ L) as M.
  rewrite Q, skipn_length_app, (match_here_complete _ _ _ _ P) in M. discriminate M.
Qed.

Lemma leftmost_of_search s m :
  re_search s = Some m ->
  exists ws1 ws2, leftmost_directive s (before m) ws1 ws2 (group1 m) (after m).
Proof.
  intros E. destruct (re_search_sound _ _ E) as (ws1 & ws2 & Q & P & D).
  exists ws1, ws2. constructor; auto. apply re_search_first, E.
Qed.

Lemma re_search_skip pre x ds rest :
  (forall k, k < length pre -> match_here (skipn k (pre ++ x)) = None) ->
  match_here x = Some (ds, rest) ->
  re_search (pre ++ x) = Some (mkMatch pre ds rest).
Proof.
  intros H M. induction pre as [|c pre IH].
  - apply re_search_match, M.
  - cbn [app re_search].
    rewrite (H 0 ltac:(simpl; lia) : match_here (c :: pre ++ x) = None).
    rewrite IH; [reflexivity|].
    intros k L. apply (H (S k)). simpl. lia.
Qed.

(** [re.search] finds the leftmost directive. *)
Lemma search_of_leftmost s pre ws1 ws2 ds post :
  leftmost_directive s pre ws1 ws2 ds post ->
  re_search s = Some (mkMatch pre ds post).
Proof.
  intros [Q P F D]. rewrite Q. apply re_search_skip.
  - intros k L. rewrite <- Q.
    destruct (match_here (skipn k s)) as [[ds' r']|] eqn:M; [|reflexivity].
    exfalso. apply match_here_sound in M as (ws1' & ws2' & M & P' & _).
    assert (L' : length pre <= length (firstn k s)).
    { apply (F (firstn k s) (directive ws1' ws2' ds') r').
      - exists ws1', ws2', ds'. auto.
      - rewrite <- M. symmetry. apply firstn_skipn. }
    rewrite length_firstn in L'. lia.
  - rewrite (match_here_complete _ _ _ _ P), (span_stuck is_digit post D).
    cbn [fst snd]. rewrite app_nil_r. reflexivity.
Qed.

(** The pieces of the scan are the pieces that [re.sub] keeps. *)
Lemma scan_re_split s pieces dirs : scan s pieces dirs -> re_split s = pieces.
Proof.
  induction 1 as [s H|s pre ws1 ws2 ds post pieces dirs L _ IH].
  - rewrite re_split_eq. apply re_search_None_iff in H. rewrite H. reflexivity.
  - rewrite re_split_eq, (search_of_leftmost _ _ _ _ _ _ L). cbn [before after].
    rewrite IH. reflexivity.
Qed.
Arguments scan_re_split {s pieces dirs}.

(** Every prompt has its scan. *)
Lemma scan_exists s : exists pieces dirs, scan s pieces dirs.
Proof.
  funelim (re_split s).
  - destruct H as (pieces & dirs & S).
    destruct (leftmost_of_search _ _ E) as (ws1 & ws2 & L).
    exists (before m :: pieces), (directive ws1 ws2 (group1 m) :: dirs).
    apply (scan_next L S).
  - exists [s], []. apply scan_end, re_search_None_iff. assumption.
Qed.

Lemma leftmost_before s pre ws1 ws2 ds post :
  leftmost_directive s pre ws1 ws2 ds post -> ~ has_directive pre.
Proof.
  intros L. pose proof (search_of_leftmost _ _ _ _ _ _ L) as E.
  apply re_search_None_iff. exact (re_search_before _ _ E).
Qed.
Arguments leftmost_before {s pre ws1 ws2 ds post}.

(** A prompt is its pieces with the deleted directives between them, and no
    directive stands in a piece. *)
Lemma scan_weave s pieces dirs :
  scan s pieces dirs ->
  s = weave pieces dirs /\ length pieces = S (length dirs) /\
  Forall is_directive dirs /\ Forall (fun piece => ~ has_directive piece) pieces.
Proof.
  induction 1 as [s H|s pre ws1 ws2 ds post pieces dirs L S (W & N & D & F)].
  - repeat split; auto.
  - repeat split.
    + cbn [weave]. rewrite <- W. apply (leftmost_split L).
    + simpl. rewrite N. reflexivity.
    + constructor; [|exact D]. exists ws1, ws2, ds. split; [reflexivity|].
      apply (leftmost_parts L).
    + constructor; [|exact F]. apply (leftmost_before L).
Qed.
Arguments scan_weave {s pieces dirs}.

(** The parser on a prompt of which the leftmost directive is known. *)
Lemma parse_leftmost s pre ws1 ws2 ds post :
  leftmost_directive s pre ws1 ws2 ds post ->
  parse_directive s
  = if int_max_str_digits <? length ds then Raise (too_many_digits ds)
    else Ok (strip (re_sub s), clamp (value ds)).
Proof.
  intros L. rewrite parse_directive_eq, (search_of_leftmost _ _ _ _ _ _ L).
  cbn [group1]. unfold cleaned, count.
  rewrite (search_of_leftmost _ _ _ _ _ _ L). reflexivity.
Qed.
Arguments parse_leftmost {s pre ws1 ws2 ds post}.

(** Line 70 raises on no prompt without a directive; on a prompt with a
    directive it raises exactly when the leftmost one has more than 4300
    digits.  The model is called for the prompts that parse, and for no
    other prompt. *)
Lemma parses_iff s :
  parses s <->
  forall pre ws1 ws2 ds post,
    leftmost_directive s pre ws1 ws2 ds post -> length ds <= 4300.
Proof.
  split.
  - intros P pre ws1 ws2 ds post L. unfold parses in P.
    rewrite (parse_leftmost L) in P.
    destruct (Nat.ltb_spec int_max_str_digits (length ds)) as [_|B];
      [discriminate P|exact B].
  - intros H. destruct (re_search s) as [m|] eqn:E; [|apply parses_None, E].
    destruct (leftmost_of_search _ _ E) as (ws1 & ws2 & L).
    apply (parses_short s m E), (H _ _ _ _ _ L).
Qed.

Lemma clamp_max_min n : clamp n = Z.max 1 (Z.min 4 n).
Proof.
  unfold clamp. destruct (Z.leb_spec n 0); [lia|].
  destruct (Z.gtb_spec n 4); lia.
Qed.

(** ** What is left of the directive *)

(** The sentence of the specification on what is left of the directive: no
    directive of the prompt is a part of the cleaned prompt. *)
Definition directive_gone (prompt : pystr) : Prop :=
  forall last_message number_of_images d,
    parse_directive prompt = Ok (last_message, number_of_images) ->
    is_directive d -> contains prompt d -> ~ contains last_message d.

(** Claim C4, as the code has it: for a prompt of which the leftmost
    directive has at most 4300 digits and the value [n], the parser returns
    the count 1 for [n <= 0], [n] for [1 <= n <= 4] and 4 for [n > 4], and
    the cleaned prompt is the trimmed text of the pieces that stood between
    the directives of the scan from left to right; when the leftmost
    directive has more than 4300 digits, [int] raises on line 70 and the
    parser returns neither a count nor a cleaned prompt.  The directives of
    the scan are all deleted, and in none of the pieces that are kept
    there is a directive.  The prompt "a cat --number_of_images=7 in space"
    gives "a cat  in space" and the count 4. *)
Theorem directive_clamped_and_deleted (prompt pre ws1 ws2 ds post : pystr)
    (pieces dirs : list pystr) :
  leftmost_directive prompt pre ws1 ws2 ds post ->
  scan prompt pieces dirs ->
  (length ds <= 4300 ->
   exists number_of_images,
     parse_directive prompt = Ok (strip (concat pieces), number_of_images) /\
     ((value ds <= 0)%Z -> number_of_images = 1%Z) /\
     ((1 <= value ds <= 4)%Z -> number_of_images = value ds) /\
     ((value ds > 4)%Z -> number_of_images = 4%Z)) /\
  (4300 < length ds -> parse_directive prompt = Raise (too_many_digits ds)) /\
  prompt = weave pieces dirs /\ length pieces = S (length dirs) /\
  Forall is_directive dirs /\
  Forall (fun piece => ~ has_directive piece) pieces /\
  parse_directive (str "a cat --number_of_images=7 in space")
  = Ok (str "a cat  in space", 4%Z).
Proof.
  intros L S.
  pose proof (parse_leftmost L) as P.
  split; [|split].
  - intros D. exists (clamp (value ds)). split.
    + destruct (Nat.ltb_spec int_max_str_digits (length ds)) as [B|_];
        [unfold int_max_str_digits in B; lia|].
      rewrite P. unfold re_sub. rewrite (scan_re_split S). reflexivity.
    + unfold clamp. repeat split.
      * intros H. destruct (Z.leb_spec (value ds) 0); [reflexivity|lia].
      * intros H. destruct (Z.leb_spec (value ds) 0); [lia|].
        destruct (Z.gtb_spec (value ds) 4); [lia|reflexivity].
      * intros H. destruct (Z.leb_spec (value ds) 0); [lia|].
        destruct (Z.gtb_spec (value ds) 4); [reflexivity|lia].
  - intros D.
    destruct (Nat.ltb_spec int_max_str_digits (length ds)) as [_|B];
      [exact P|unfold int_max_str_digits in B; lia].
  - destruct (scan_weave S) as (W & N & Hd & Hp). repeat split; auto.
Qed.

(** The leftmost directive and the scan of the prompt of the
    specification. *)
Lemma cat_in_space_leftmost :
  leftmost_directive cat_in_space (str "a cat ") [] [] (str "7") (str " in space").
Proof.
  constructor.
  - reflexivity.
  - constructor; try reflexivity. discriminate.
  - apply (re_search_first cat_in_space
             (mkMatch (str "a cat ") (str "7") (str " in space"))).
    vm_compute. reflexivity.
  - intros c r E. injection E as <- _. reflexivity.
Qed.

Lemma cat_in_space_scan :
  scan cat_in_space [str "a cat "; str " in space"] [directive [] [] (str "7")].
Proof.
  apply (scan_next cat_in_space_leftmost). apply scan_end.
  apply re_search_None_iff. vm_compute. reflexivity.
Qed.

Lemma directive_clamped_and_deleted_witness :
  leftmost_directive cat_in_space (str "a cat ") [] [] (str "7") (str " in space") /\
  length (str "7") <= 4300 /\
  scan cat_in_space [str "a cat "; str " in space"] [directive [] [] (str "7")] /\
  exists number_of_images,
    parse_directive cat_in_space = Ok (str "a cat  in space", number_of_images) /\
    number_of_images = 4%Z.
Proof.
  assert (D : length (str "7") <= 4300) by (vm_compute; lia).
  split; [exact cat_in_space_leftmost|]. split; [exact D|].
  split; [exact cat_in_space_scan|].
  destruct (proj1 (directive_clamped_and_deleted _ _ _ _ _ _ _ _
                     cat_in_space_leftmost cat_in_space_scan) D)
    as (n & P & _ & _ & C).
  exists n. split; [exact P|]. apply C. vm_compute. reflexivity.
Defined.

(** Claim C4 as it is written fails where the text on the two sides of a
    deleted directive joins into a directive: the directive in the middle of
    this prompt is found and deleted, and what is left of the prompt is the
    text of that directive again. *)
Lemma not_directive_gone :
  ~ directive_gone (str "--number_of_--number_of_images=1images=1").
Proof.
  intros H.
  apply (H (str "--number_of_images=1") 1%Z (str "--number_of_images=1")).
  - vm_compute. reflexivity.
  - exists [], [], (str "1"). split; [reflexivity|].
    constructor; try reflexivity. discriminate.
  - exists (str "--number_of_"), (str "images=1"). reflexivity.
  - exists [], []. reflexivity.
Qed.

(** A run of 4301 digits. *)
Definition long_run : pystr := repeat "9"%char 4301.

(** Past 4300 digits line 70 raises: the parser returns nothing, and the
    handler answers with the message of the [ValueError] and does not call
    the model. *)
Lemma long_directive_raises :
  parse_directive (flag ++ str "=" ++ long_run) = Raise (too_many_digits long_run)
  /\ forall w,
       GCS.get_response w (mkRequest [mkMessage (flag ++ str "=" ++ long_run)] (str "m1"))
       = ([response (error_text (too_many_digits long_run))], Ok tt).
Proof.
  assert (P : parse_directive (flag ++ str "=" ++ long_run)
              = Raise (too_many_digits long_run)).
  { rewrite parse_directive_eq.
    change (flag ++ str "=" ++ long_run) with ([] ++ directive [] [] long_run ++ []).
    rewrite re_search_at.
    - reflexivity.
    - intros [].
    - constructor; [reflexivity|reflexivity| |discriminate].
      unfold long_run. apply forallb_forall. intros c I.
      apply repeat_spec in I. subst c. reflexivity. }
  split; [exact P|]. intros w.
  unfold GCS.get_response, GCS.body.
  rewrite (handler_raises w _ (mkRequest [mkMessage (flag ++ str "=" ++ long_run)] (str "m1"))
             (flag ++ str "=" ++ long_run) _ eq_refl ltac:(discriminate) P).
  reflexivity.
Qed.

(** ** Parsing the cleaned prompt again *)

Lemma parse_no_directive s : ~ has_directive s -> parse_directive s = Ok (s, 1%Z).
Proof.
  intros H. apply re_search_None_iff in H.
  unfold parse_directive. rewrite H. reflexivity.
Qed.

(** No directive stands in a cleaned prompt without a hyphen. *)
Lemma no_hyphen_no_directive s : ~ In "-"%char s -> ~ has_directive s.
Proof. intros H. apply re_search_None_iff, re_search_no_hyphen, H. Qed.

Lemma strip_incl s : incl (strip s) s.
Proof.
  intros c I.
  destruct (rstrip_prefix (lstrip s)) as (ws & Q & _). fold (strip s) in Q.
  rewrite <- (span_eq is_space s). apply in_or_app. right.
  fold (lstrip s). rewrite Q. apply in_or_app. left. exact I.
Qed.

(** The sentence of the specification on parsing twice. *)
Definition reparse_is_noop (prompt : pystr) : Prop :=
  prompt <> [] ->
  forall last_message number_of_images,
    parse_directive prompt = Ok (last_message, number_of_images) ->
    parse_directive last_message = Ok (last_message, 1%Z).

(** Claim C8, as the code has it.  The first run deletes every directive of
    the scan from left to right: the cleaned prompt is the trimmed text of
    the pieces between them (the prompt itself when there is no directive),
    and no directive stands in a piece.  Parsing the cleaned prompt again
    gives the same cleaned prompt and the count 1 exactly when no directive
    stands in it, which is so when no piece holds a hyphen; a directive can
    stand in it only across the place of a deleted directive.  The second
    run then deletes it with the directives of its own scan and takes the
    count of the leftmost one, so that it returns a shorter prompt, when
    that directive has at most 4300 digits; it raises when it has more. *)
Theorem reparse_noop_iff (prompt last_message : pystr) (number_of_images : Z)
    (pieces dirs : list pystr) :
  prompt <> [] ->
  parse_directive prompt = Ok (last_message, number_of_images) ->
  scan prompt pieces dirs ->
  last_message = match dirs with
                 | [] => prompt
                 | _ :: _ => strip (concat pieces)
                 end /\
  Forall (fun piece => ~ has_directive piece) pieces /\
  (parse_directive last_message = Ok (last_message, 1%Z)
   <-> ~ has_directive last_message) /\
  (Forall (fun piece => ~ In "-"%char piece) pieces ->
   parse_directive last_message = Ok (last_message, 1%Z)) /\
  (forall pre ws1 ws2 ds post pieces' dirs',
      leftmost_directive last_message pre ws1 ws2 ds post ->
      scan last_message pieces' dirs' ->
      (length ds <= 4300 ->
       parse_directive last_message
       = Ok (strip (concat pieces'), Z.max 1 (Z.min 4 (value ds))) /\
       length (strip (concat pieces')) + 20 <= length last_message) /\
      (4300 < length ds ->
       parse_directive last_message = Raise (too_many_digits ds))).
Proof.
  intros _ P S.
  destruct (parse_directive_Ok _ _ _ P) as [C _].
  assert (E : last_message = match dirs with
                             | [] => prompt
                             | _ :: _ => strip (concat pieces)
                             end).
  { rewrite C. unfold cleaned. pose proof (scan_re_split S) as R.
    destruct S as [s H|s pre ws1 ws2 ds post pieces dirs L S].
    - apply re_search_None_iff in H. rewrite H. reflexivity.
    - rewrite (search_of_leftmost _ _ _ _ _ _ L). unfold re_sub. rewrite R.
      reflexivity. }
  assert (I : incl last_message (concat pieces)).
  { rewrite E. destruct S as [s H|s pre ws1 ws2 ds post pieces dirs L S].
    - cbn [concat]. rewrite app_nil_r. apply incl_refl.
    - apply strip_incl. }
  split; [exact E|]. split; [apply (scan_weave S)|]. split; [|split].
  - split.
    + intros Q H. apply re_search_complete in H.
      destruct (re_search last_message) as [m|] eqn:M; [|contradiction].
      pose proof (cleaned_shorter _ _ M) as L.
      destruct (parse_directive_Ok _ _ _ Q) as [Q' _]. rewrite <- Q' in L. lia.
    + apply parse_no_directive.
  - intros F. apply parse_no_directive, no_hyphen_no_directive.
    intros H. apply I in H. apply in_concat in H as (piece & Hp & Hc).
    rewrite Forall_forall in F. apply (F piece Hp Hc).
  - intros pre ws1 ws2 ds post pieces' dirs' L S'.
    pose proof (parse_leftmost L) as Q.
    pose proof (re_sub_shorter _ _ (search_of_leftmost _ _ _ _ _ _ L)) as R.
    unfold re_sub in Q, R. rewrite (scan_re_split S') in Q, R.
    split; intros D.
    + destruct (Nat.ltb_spec int_max_str_digits (length ds)) as [B|_];
        [unfold int_max_str_digits in B; lia|].
      rewrite clamp_max_min in Q. split; [exact Q|].
      pose proof (strip_length (concat pieces')). lia.
    + destruct (Nat.ltb_spec int_max_str_digits (length ds)) as [_|B];
        [exact Q|unfold int_max_str_digits in B; lia].
Qed.

Lemma reparse_noop_iff_witness :
  cat_in_space <> [] /\
  parse_directive cat_in_space = Ok (str "a cat  in space", 4%Z) /\
  scan cat_in_space [str "a cat "; str " in space"] [directive [] [] (str "7")] /\
  parse_directive (str "a cat  in space") = Ok (str "a cat  in space", 1%Z).
Proof.
  assert (N : cat_in_space <> []) by discriminate.
  assert (P : parse_directive cat_in_space = Ok (str "a cat  in space", 4%Z))
    by (vm_compute; reflexivity).
  split; [exact N|]. split; [exact P|]. split; [exact cat_in_space_scan|].
  apply (proj1 (proj2 (proj2 (proj2 (reparse_noop_iff _ _ _ _ _ N P cat_in_space_scan))))).
  repeat constructor; vm_compute;
    intros H; repeat (destruct H as [H|H]; [discriminate H|]); exact H.
Defined.

(** Claim C8 as it is written fails where the text on the two sides of a
    deleted directive joins into a directive: the cleaned prompt of this
    prompt is a directive, and parsing it again gives the empty prompt and
    the count 2. *)
Lemma not_reparse_is_noop :
  ~ reparse_is_noop (str "--number_of_--number_of_images=1images=2").
Proof.
  intros H.
  specialize (H ltac:(discriminate) (str "--number_of_images=2") 1%Z
                ltac:(vm_compute; reflexivity)).
  vm_compute in H. discriminate H.
Qed.

(** ** Batches *)

(** [f] over a list with the position of every element, from [index] on:
    what [enumerate] gives the loop. *)
Fixpoint imap {A B : Type} (f : nat -> A -> B) (index : nat) (l : list A) : list B :=
  match l with
  | [] => []
  | a :: l' => f index a :: imap f (S index) l'
  end.

(** [P index a b] for the elements of two lists at the same position. *)
Inductive Forall2i {A B : Type} (P : nat -> A -> B -> Prop) : nat -> list A -> list B -> Prop :=
| Forall2i_nil index : Forall2i P index [] []
| Forall2i_cons index a b la lb :
    P index a b -> Forall2i P (S index) la lb -> Forall2i P index (a :: la) (b :: lb).

(** The JPEG bytes of a generated image that has pixel data and can be
    saved. *)
Definition jpeg_of (img_obj : GeneratedImage) : option bytes :=
  match _pil_image img_obj with
  | Some generated_image =>
      match save generated_image with
      | Ok image_bytes => Some image_bytes
      | Raise _ => None
      end
  | None => None
  end.

(** The signed link of the image at [index], when the upload and the
    signing both succeed. *)
Definition link_of (w : World) (index : nat) (image_bytes : bytes) : option pystr :=
  match upload_from_file w index (GCS.random_filename w index) image_bytes with
  | Ok _ =>
      match generate_signed_url w index (GCS.random_filename w index) with
      | Ok signed_url => Some signed_url
      | Raise _ => None
      end
  | Raise _ => None
  end.

(** The image at [index] is published as the link [signed_url]. *)
Definition links (w : World) (index : nat) (img_obj : GeneratedImage)
    (signed_url : pystr) : Prop :=
  exists image_bytes,
    jpeg_of img_obj = Some image_bytes /\ link_of w index image_bytes = Some signed_url.

(** The publish of the image at [index] fails, and the chat takes the
    attachment. *)
Definition falls_back (w : World) (request : QueryRequest) (last_message : pystr)
    (index : nat) (img_obj : GeneratedImage) (image_bytes : bytes) : Prop :=
  jpeg_of img_obj = Some image_bytes /\
  link_of w index image_bytes = None /\
  post_message_attachment w index (message_id request) image_bytes
    (filename_of last_message index) = Ok tt.

(** [a in b], decided. *)
Fixpoint containsb (b a : pystr) : bool :=
  match strip_prefix a b with
  | Some _ => true
  | None =>
      match b with
      | [] => false
      | _ :: b' => containsb b' a
      end
  end.

Lemma containsb_complete b a : contains b a -> containsb b a = true.
Proof.
  intros (pre & post & ->).
  induction pre as [|c pre IH].
  - simpl. destruct (a ++ post) eqn:E; simpl;
      rewrite <- E, strip_prefix_app; reflexivity.
  - cbn [app containsb]. destruct (strip_prefix a (c :: pre ++ a ++ post)); auto.
Qed.

Lemma delivered_app tr tr' : delivered (tr ++ tr') = delivered tr ++ delivered tr'.
Proof. apply filter_app. Qed.

Lemma jpeg_of_Some img data :
  jpeg_of img = Some data ->
  exists pil, _pil_image img = Some pil /\ save pil = Ok data.
Proof.
  unfold jpeg_of. destruct (_pil_image img) as [pil|]; [|discriminate].
  destruct (save pil) as [d|e] eqn:E; [|discriminate].
  intros H; injection H as <-. eauto.
Qed.

(** ** One image *)

(** Lines 151 to 166 when the bucket takes the image and signs the link. *)
Lemma publish_link w request last_message number_of_images index data url :
  link_of w index data = Some url ->
  GCS.publish w request last_message number_of_images index data
  = ([uploaded (GCS.random_filename w index) data;
      response (GCS.markdown_image (filename_of last_message index) url)], Ok tt).
Proof.
  unfold link_of, GCS.publish.
  destruct (upload_from_file w index (GCS.random_filename w index) data) as [[]|e];
    [|discriminate].
  destruct (generate_signed_url w index (GCS.random_filename w index)) as [u|e];
    [|discriminate].
  intros H; injection H as <-. reflexivity.
Qed.

(** Lines 168 to 177 when the upload or the signing raises: the attachment,
    and the summary right after it. *)
Lemma publish_fallback w request last_message number_of_images index data :
  link_of w index data = None ->
  post_message_attachment w index (message_id request) data
    (filename_of last_message index) = Ok tt ->
  exists tr,
    GCS.publish w request last_message number_of_images index data = (tr, Ok tt) /\
    delivered tr = [attached (filename_of last_message index) data;
                    response (summary number_of_images last_message)].
Proof.
  unfold link_of, GCS.publish. intros L P. rewrite P.
  destruct (upload_from_file w index (GCS.random_filename w index) data) as [[]|e].
  - destruct (generate_signed_url w index (GCS.random_filename w index)) as [u|e];
      [discriminate|].
    eexists; split; reflexivity.
  - eexists; split; reflexivity.
Qed.

(** What the inner [except] lets through is what the chat raised when it
    was given the attachment. *)
Lemma publish_raises w request last_message number_of_images index data tr e :
  GCS.publish w request last_message number_of_images index data = (tr, Raise e) ->
  post_message_attachment w index (message_id request) data
    (filename_of last_message index) = Raise e.
Proof.
  unfold GCS.publish.
  destruct (upload_from_file w index (GCS.random_filename w index) data) as [[]|e1];
    destruct (generate_signed_url w index (GCS.random_filename w index)) as [url|e2];
    destruct (post_message_attachment w index (message_id request) data
                (filename_of last_message index)) as [[]|e3];
    cbn; intros H; try discriminate H; injection H as _ <-; reflexivity.
Qed.

(** ** The loop *)

Lemma Forall2i_length {A B : Type} (P : nat -> A -> B -> Prop) index la lb :
  Forall2i P index la lb -> length la = length lb.
Proof. induction 1; simpl; congruence. Qed.

Lemma Forall2i_nth {A B : Type} (P : nat -> A -> B -> Prop) index la lb :
  Forall2i P index la lb ->
  forall i b, nth_error lb i = Some b ->
              exists a, nth_error la i = Some a /\ P (index + i) a b.
Proof.
  induction 1 as [|index a b la lb H _ IH]; intros i b' E.
  - destruct i; discriminate E.
  - destruct i as [|i]; simpl in E.
    + injection E as <-. exists a. rewrite Nat.add_0_r. auto.
    + destruct (IH i b' E) as (a' & E' & P').
      exists a'. rewrite Nat.add_succ_r. auto.
Qed.

Lemma imap_length {A B : Type} (f : nat -> A -> B) l :
  forall index, length (imap f index l) = length l.
Proof. induction l; intros index; simpl; auto. Qed.

Lemma responses_delivered tr : responses (delivered tr) = responses tr.
Proof.
  induction tr as [|ev tr IH]; [reflexivity|].
  destruct ev; simpl; rewrite ?IH; reflexivity.
Qed.

Lemma attachments_delivered tr : attachments (delivered tr) = attachments tr.
Proof.
  induction tr as [|ev tr IH]; [reflexivity|].
  destruct ev; simpl; rewrite ?IH; reflexivity.
Qed.

Lemma responses_map_response texts : responses (map response texts) = texts.
Proof. induction texts; simpl; congruence. Qed.

(** One turn of the loop on an image without pixel data: [continue]. *)
Lemma publish_all_skip w request last_message number_of_images index img images :
  _pil_image img = None ->
  GCS.publish_all w request last_message number_of_images index (img :: images)
  = GCS.publish_all w request last_message number_of_images (S index) images.
Proof. intros H. cbn [GCS.publish_all]. rewrite H, bind_ret. reflexivity. Qed.

(** One turn of the loop on an image that was published or attached. *)
Lemma publish_all_step w request last_message number_of_images index img images data tr :
  jpeg_of img = Some data ->
  GCS.publish w request last_message number_of_images index data = (tr, Ok tt) ->
  GCS.publish_all w request last_message number_of_images index (img :: images)
  = (tr ++ fst (GCS.publish_all w request last_message number_of_images (S index) images),
     snd (GCS.publish_all w request last_message number_of_images (S index) images)).
Proof.
  intros J P. apply jpeg_of_Some in J as (pil & E1 & E2).
  cbn [GCS.publish_all]. rewrite E1, E2, bind_call_Ok, P, bind_Ok. reflexivity.
Qed.

(** The loop on a batch of which no image has pixel data does nothing. *)
Lemma publish_all_skipped w request last_message number_of_images images :
  Forall (fun img => _pil_image img = None) images ->
  forall index,
    GCS.publish_all w request last_message number_of_images index images = ([], Ok tt).
Proof.
  induction 1 as [|img images H _ IH]; intros index; [reflexivity|].
  rewrite publish_all_skip by assumption. apply IH.
Qed.

(** The loop on a batch of which every image becomes a link: one response
    for every image, with its link, in the order of the batch. *)
Lemma publish_all_links w request last_message number_of_images index images urls :
  Forall2i (links w) index images urls ->
  exists tr,
    GCS.publish_all w request last_message number_of_images index images = (tr, Ok tt) /\
    delivered tr
    = map response
        (imap (fun i url => GCS.markdown_image (filename_of last_message i) url) index urls).
Proof.
  induction 1 as [index|index img url images urls (data & J & L) _ (tr & E & D)].
  - exists []. split; reflexivity.
  - eexists. split.
    + rewrite (publish_all_step _ _ _ _ _ _ _ _ _ J
                 (publish_link _ request last_message number_of_images _ _ _ L)).
      rewrite E. reflexivity.
    + cbn [fst]. rewrite delivered_app, D. reflexivity.
Qed.

(** The loop on a batch of which every publish fails: every image is
    attached, in the order of the batch, and line 177 runs in every turn. *)
Lemma publish_all_fallback w request last_message number_of_images index images datas :
  Forall2i (falls_back w request last_message) index images datas ->
  exists tr,
    GCS.publish_all w request last_message number_of_images index images = (tr, Ok tt) /\
    delivered tr
    = concat (imap (fun i data => [attached (filename_of last_message i) data;
                                   response (summary number_of_images last_message)])
                   index datas).
Proof.
  induction 1 as [index|index img data images datas (J & L & P) _ (tr & E & D)].
  - exists []. split; reflexivity.
  - destruct (publish_fallback _ _ _ number_of_images _ _ L P) as (tr1 & E1 & D1).
    eexists. split.
    + rewrite (publish_all_step _ _ _ _ _ _ _ _ _ J E1), E. reflexivity.
    + cbn [fst]. rewrite delivered_app, D1, D. reflexivity.
Qed.

(** The loop of the second file, which attaches every image. *)
Lemma attach_all_attached w request last_message index images datas :
  Forall2i (falls_back w request last_message) index images datas ->
  OutGcp.attach_all w request last_message index images
  = (imap (fun i data => attached (filename_of last_message i) data) index datas, Ok tt).
Proof.
  induction 1 as [index|index img data images datas (J & _ & P) _ IH]; [reflexivity|].
  apply jpeg_of_Some in J as (pil & E1 & E2).
  cbn [OutGcp.attach_all]. rewrite E1, E2, bind_call_Ok, P, bind_call_Ok.
  rewrite bind_emit, IH. reflexivity.
Qed.

Lemma attach_all_skipped w request last_message images :
  Forall (fun img => _pil_image img = None) images ->
  forall index, OutGcp.attach_all w request last_message index images = ([], Ok tt).
Proof.
  induction 1 as [|img images H _ IH]; intros index; [reflexivity|].
  cbn [OutGcp.attach_all]. rewrite H, bind_ret. apply IH.
Qed.

(** ** The whole handler on a batch *)

Lemma GCS_run w request prompt images tr :
  last_content request = Ok prompt -> prompt <> [] -> parses prompt ->
  generate_images w (cleaned prompt) (count prompt) = Ok images ->
  images <> [] ->
  GCS.publish_all w request (cleaned prompt) (count prompt) 0 images = (tr, Ok tt) ->
  GCS.get_response w request
  = (generating (cleaned prompt) (count prompt) :: tr, Ok tt).
Proof.
  intros H N Hp G I P. unfold GCS.get_response, GCS.body.
  rewrite (handler_images _ _ _ _ _ H N Hp G I), P. reflexivity.
Qed.

Lemma OutGcp_run w request prompt images tr :
  last_content request = Ok prompt -> prompt <> [] -> parses prompt ->
  generate_images w (cleaned prompt) (count prompt) = Ok images ->
  images <> [] ->
  OutGcp.attach_all w request (cleaned prompt) 0 images = (tr, Ok tt) ->
  OutGcp.get_response w request
  = (generating (cleaned prompt) (count prompt)
       :: tr ++ [response (summary (count prompt) (cleaned prompt))], Ok tt).
Proof.
  intros H N Hp G I P. unfold OutGcp.get_response, OutGcp.body.
  rewrite (handler_images _ _ _ _ _ H N Hp G I), P. reflexivity.
Qed.

(** No images: lines 95 to 97, the same in both files. *)
Lemma no_images_response w request prompt :
  last_content request = Ok prompt -> prompt <> [] -> parses prompt ->
  generate_images w (cleaned prompt) (count prompt) = Ok [] ->
  GCS.get_response w request
  = ([generating (cleaned prompt) (count prompt); response no_images], Ok tt)
  /\ OutGcp.get_response w request
     = ([generating (cleaned prompt) (count prompt); response no_images], Ok tt).
Proof.
  intros H N Hp G.
  unfold GCS.get_response, GCS.body, OutGcp.get_response, OutGcp.body.
  rewrite !(handler_prompt _ _ _ _ H N Hp), G. split; reflexivity.
Qed.

(** ** Batches without a usable image *)

(** Claim C2, where the first file departs from it: when the model, called
    for a prompt that parses, returns images and none of them has pixel
    data, every turn of the loop of
    [imagen_bot_poe.py] is skipped and the handler ends without any
    response, because its summary is yielded inside the [except] of the
    loop; the second file, where the summary follows the loop, yields that
    one response. *)
Theorem all_skipped_no_response (w : World) (request : QueryRequest)
    (prompt : pystr) (images : list GeneratedImage) :
  last_content request = Ok prompt -> prompt <> [] -> parses prompt ->
  generate_images w (cleaned prompt) (count prompt) = Ok images ->
  images <> [] ->
  Forall (fun img => _pil_image img = None) images ->
  GCS.get_response w request
  = ([generating (cleaned prompt) (count prompt)], Ok tt)
  /\ OutGcp.get_response w request
     = ([generating (cleaned prompt) (count prompt);
         response (summary (count prompt) (cleaned prompt))], Ok tt).
Proof.
  intros H N Hp G I S. split.
  - apply (GCS_run _ _ _ _ _ H N Hp G I). apply publish_all_skipped, S.
  - apply (OutGcp_run _ _ _ _ [] H N Hp G I). apply attach_all_skipped, S.
Qed.

Lemma all_skipped_no_response_witness :
  Forall (fun img => _pil_image img = None) [no_pixels] /\
  GCS.get_response (bucket_down [no_pixels]) (ask "cat")
  = ([generating (str "cat") 1], Ok tt).
Proof.
  assert (S : Forall (fun img => _pil_image img = None) [no_pixels])
    by (constructor; [reflexivity|constructor]).
  split; [exact S|].
  exact (proj1 (all_skipped_no_response (bucket_down [no_pixels]) (ask "cat")
                  (str "cat") [no_pixels]
                  eq_refl ltac:(discriminate) eq_refl eq_refl ltac:(discriminate) S)).
Defined.

(** ** Exceptions *)

(** The sentence of the specification on exceptions: the handler ends
    without raising. *)
Definition never_propagates (w : World) (request : QueryRequest) : Prop :=
  exists tr, GCS.get_response w request = (tr, Ok tt).

(** Claim C6, as the code has it: an exception that ends the body of the
    outer [try] and is an instance of [Exception] becomes one last response
    "Error: <message>", after which the handler ends without raising; an
    exception that is no instance of [Exception] is not caught by
    [except Exception] and leaves the handler.  Which exceptions end the
    body is the matter of [body_raises] and [publish_all_raises] below. *)
Theorem Exception_becomes_response (w : World) (request : QueryRequest)
    (tr : list event) (e : exn) :
  GCS.body w request = (tr, Raise e) ->
  (is_Exception e = true ->
   GCS.get_response w request
   = (tr ++ [response (str "Error: " ++ message e)], Ok tt))
  /\ (is_Exception e = false -> GCS.get_response w request = (tr, Raise e)).
Proof.
  intros B. unfold GCS.get_response. rewrite B. split; intros H.
  - apply try_Exception, H.
  - apply try_other, H.
Qed.

Lemma Exception_becomes_response_witness :
  GCS.body model_down (ask "cat") = ([generating (str "cat") 1], Raise quota) /\
  is_Exception quota = true /\
  GCS.get_response model_down (ask "cat")
  = ([generating (str "cat") 1; response (str "Error: 429 Quota exceeded")], Ok tt).
Proof.
  assert (B : GCS.body model_down (ask "cat") = ([generating (str "cat") 1], Raise quota))
    by reflexivity.
  split; [exact B|]. split; [reflexivity|].
  exact (proj1 (Exception_becomes_response model_down (ask "cat") _ _ B) eq_refl).
Defined.

(** [asyncio.CancelledError], which derives from [BaseException]. *)
Definition CancelledError : exn := mkExn false [].

(** A world in which the bucket is out of reach and the task is cancelled
    while it awaits the chat. *)
Definition cancelled (images : list GeneratedImage) : World :=
  mkWorld (fun _ _ => Ok images) (fun _ _ => 0)
          (fun _ _ _ => Raise down) (fun _ _ => Raise down)
          (fun _ _ _ _ => Raise CancelledError).

(** Claim C6 as it is written fails on an exception outside [Exception]:
    the [CancelledError] raised in [await self.post_message_attachment]
    leaves the handler. *)
Lemma not_never_propagates :
  ~ never_propagates (cancelled [jpeg [Byte.x00]]) (ask "cat").
Proof.
  intros (tr & H). vm_compute in H. discriminate H.
Qed.

(** The exceptions that end the loop come from [save] and from the chat:
    what the upload and the signing raise stays inside the loop. *)
Lemma publish_all_raises w request last_message number_of_images images :
  forall index tr e,
    GCS.publish_all w request last_message number_of_images index images = (tr, Raise e) ->
    exists i img pil,
      nth_error images i = Some img /\ _pil_image img = Some pil /\
      (save pil = Raise e \/
       exists data,
         save pil = Ok data /\
         post_message_attachment w (index + i) (message_id request) data
           (filename_of last_message (index + i)) = Raise e).
Proof.
  induction images as [|img images IH]; intros index tr e H; [discriminate|].
  cbn [GCS.publish_all] in H.
  assert (Next : forall tr',
             GCS.publish_all w request last_message number_of_images (S index) images
             = (tr', Raise e) ->
             exists i img' pil,
               nth_error (img :: images) i = Some img' /\ _pil_image img' = Some pil /\
               (save pil = Raise e \/
                exists data,
                  save pil = Ok data /\
                  post_message_attachment w (index + i) (message_id request) data
                    (filename_of last_message (index + i)) = Raise e)).
  { intros tr' E. destruct (IH _ _ _ E) as (i & img' & pil & Hn & Hp & Hr).
    exists (S i), img', pil. rewrite Nat.add_succ_r. auto. }
  destruct (_pil_image img) as [pil|] eqn:Ep.
  - destruct (save pil) as [data|e'] eqn:Es.
    + rewrite bind_call_Ok in H.
      destruct (GCS.publish w request last_message number_of_images index data)
        as [tr1 [[]|e1]] eqn:P.
      * rewrite bind_Ok in H.
        destruct (GCS.publish_all w request last_message number_of_images (S index) images)
          as [tr2 r2] eqn:E2.
        injection H as _ ->. eapply Next. reflexivity.
      * injection H as _ ->. apply publish_raises in P.
        exists 0, img, pil. rewrite Nat.add_0_r. eauto 6.
    + injection H as _ ->. exists 0, img, pil. auto.
  - rewrite bind_ret in H. eapply Next, H.
Qed.

(** The exceptions that reach the outer [except]: the [IndexError] of an
    empty list of turns, the [ValueError] of line 70, what the model raises,
    and what ends the loop. *)
Lemma body_raises w request tr e :
  GCS.body w request = (tr, Raise e) ->
  (query request = [] /\ e = IndexError) \/
  exists prompt,
    last_content request = Ok prompt /\
    (parse_directive prompt = Raise e \/
     generate_images w (cleaned prompt) (count prompt) = Raise e \/
     exists images tr',
       generate_images w (cleaned prompt) (count prompt) = Ok images /\
       GCS.publish_all w request (cleaned prompt) (count prompt) 0 images
       = (tr', Raise e)).
Proof.
  unfold GCS.body. intros H.
  destruct (last_content request) as [prompt|e0] eqn:L.
  - right. exists prompt. split; [reflexivity|].
    destruct prompt as [|c p].
    + unfold handler in H. rewrite L in H. discriminate H.
    + destruct (parse_directive (c :: p)) as [[lm n]|e1] eqn:Q.
      2:{ left.
          rewrite (handler_raises _ _ _ _ _ L ltac:(discriminate) Q) in H.
          injection H as _ ->. reflexivity. }
      right. destruct (parse_directive_Ok _ _ _ Q) as [-> ->].
      rewrite (handler_prompt _ _ _ _ L ltac:(discriminate) Q), bind_emit in H.
      destruct (generate_images w (cleaned (c :: p)) (count (c :: p))) as [images|e1].
      * right. rewrite bind_call_Ok in H.
        destruct (length images =? 0); [discriminate H|].
        destruct (GCS.publish_all w request (cleaned (c :: p)) (count (c :: p)) 0 images)
          as [tr' r'] eqn:P.
        injection H as _ ->. eauto.
      * left. injection H as _ ->. reflexivity.
  - left. unfold handler in H. rewrite L in H. injection H as _ <-.
    unfold last_content in L. destruct (rev (query request)) eqn:R; [|discriminate].
    injection L as <-. split; [|reflexivity].
    apply (f_equal (@rev _)) in R. rewrite rev_involutive in R. exact R.
Qed.

(** ** Batches of links *)

Lemma markdown_contains filename url : contains (GCS.markdown_image filename url) url.
Proof.
  exists (str "![Generated Image_" ++ filename ++ str "]("), (str ")").
  unfold GCS.markdown_image. rewrite <- !app_assoc. reflexivity.
Qed.

Lemma imap_contains (f : nat -> pystr) urls :
  forall index,
    Forall2 contains (imap (fun i url => GCS.markdown_image (f i) url) index urls) urls.
Proof.
  induction urls as [|url urls IH]; intros index; constructor; auto.
  apply markdown_contains.
Qed.

(** The links of a batch are distinct when the names drawn for its images
    are, and the signer gives distinct names distinct links. *)
Lemma links_NoDup w images urls :
  Forall2i (links w) 0 images urls ->
  (forall i j, i < length images -> j < length images ->
               GCS.random_filename w i = GCS.random_filename w j -> i = j) ->
  (forall i j name name' url,
      generate_signed_url w i name = Ok url ->
      generate_signed_url w j name' = Ok url -> name = name') ->
  NoDup urls.
Proof.
  intros F K S. apply NoDup_nth_error. intros i j Li E.
  destruct (nth_error urls i) as [url|] eqn:Ei.
  2:{ apply nth_error_None in Ei. lia. }
  symmetry in E.
  assert (Lj : j < length urls) by (apply nth_error_Some; congruence).
  destruct (Forall2i_nth _ _ _ _ F _ _ Ei) as (a & _ & data & _ & Ui).
  destruct (Forall2i_nth _ _ _ _ F _ _ E) as (a' & _ & data' & _ & Uj).
  simpl in Ui, Uj. unfold link_of in Ui, Uj.
  destruct (upload_from_file w i (GCS.random_filename w i) data); [|discriminate].
  destruct (upload_from_file w j (GCS.random_filename w j) data'); [|discriminate].
  destruct (generate_signed_url w i (GCS.random_filename w i)) as [u|] eqn:Si;
    [|discriminate].
  destruct (generate_signed_url w j (GCS.random_filename w j)) as [u'|] eqn:Sj;
    [|discriminate].
  injection Ui as ->. injection Uj as ->.
  rewrite (Forall2i_length _ _ _ _ F) in K. apply K; auto.
  apply (S _ _ _ _ _ Si Sj).
Qed.

(** The sentence of the specification on the links of a batch: the
    responses hold, in order, the links that the signer gave for the
    images, and no two of these links are the same. *)
Definition distinct_links (w : World) (request : QueryRequest) : Prop :=
  exists urls,
    NoDup urls /\
    Forall2i (fun i text url =>
                generate_signed_url w i (GCS.random_filename w i) = Ok url /\
                contains text url)
             0 (responses (fst (GCS.get_response w request))) urls.

(** Claim C5, as the code has it: when every image of a batch of N >= 1
    images, generated for a prompt that parses, is published as a link, the handler yields N responses and
    nothing else, one for every image in the order of the batch, each
    holding the link that the signer gave for its image; these links are
    distinct when the random names of the images are distinct and the
    signer gives distinct names distinct links. *)
Theorem links_in_order (w : World) (request : QueryRequest) (prompt : pystr)
    (images : list GeneratedImage) (urls : list pystr) :
  last_content request = Ok prompt -> prompt <> [] -> parses prompt ->
  generate_images w (cleaned prompt) (count prompt) = Ok images ->
  images <> [] ->
  Forall2i (links w) 0 images urls ->
  exists tr,
    GCS.get_response w request = (tr, Ok tt) /\
    delivered tr
    = map response
        (imap (fun i url => GCS.markdown_image (filename_of (cleaned prompt) i) url) 0 urls) /\
    length (responses tr) = length images /\
    Forall2 contains (responses tr) urls /\
    ((forall i j, i < length images -> j < length images ->
                  GCS.random_filename w i = GCS.random_filename w j -> i = j) ->
     (forall i j name name' url,
         generate_signed_url w i name = Ok url ->
         generate_signed_url w j name' = Ok url -> name = name') ->
     NoDup urls).
Proof.
  intros H N Hp G I F.
  destruct (publish_all_links w request (cleaned prompt) (count prompt) _ _ _ F) as (tr & E & D).
  exists (generating (cleaned prompt) (count prompt) :: tr).
  assert (R : responses tr
              = imap (fun i url => GCS.markdown_image (filename_of (cleaned prompt) i) url)
                     0 urls).
  { rewrite <- responses_delivered, D. apply responses_map_response. }
  split; [apply (GCS_run _ _ _ _ _ H N Hp G I E)|].
  split; [exact D|].
  change (responses (generating (cleaned prompt) (count prompt) :: tr)) with (responses tr).
  rewrite R. split; [|split].
  - rewrite imap_length. symmetry. apply (Forall2i_length _ _ _ _ F).
  - apply imap_contains.
  - apply (links_NoDup _ _ _ F).
Qed.

(** A world with a bucket that takes every image and signs the link of a
    name with the name in it. *)
Definition bucket_up (choice : nat -> nat -> nat) (images : list GeneratedImage) : World :=
  mkWorld (fun _ _ => Ok images) choice
          (fun _ _ _ => Ok tt)
          (fun _ name => Ok (str "https://storage.googleapis.com/b/" ++ name))
          (fun _ _ _ _ => Ok tt).

Definition url_a : pystr :=
  str "https://storage.googleapis.com/b/aaaaaaaaaaaaaaaaaaaaaaaa.jpg".

Definition url_b : pystr :=
  str "https://storage.googleapis.com/b/bbbbbbbbbbbbbbbbbbbbbbbb.jpg".

Lemma links_in_order_witness :
  Forall2i (links (bucket_up (fun i _ => i) two_jpegs)) 0 two_jpegs [url_a; url_b] /\
  exists tr,
    GCS.get_response (bucket_up (fun i _ => i) two_jpegs) (ask "cat") = (tr, Ok tt) /\
    delivered tr
    = [response (str "![Generated Image_cat_image_1.jpg](" ++ url_a ++ str ")");
       response (str "![Generated Image_cat_image_2.jpg](" ++ url_b ++ str ")")].
Proof.
  assert (F : Forall2i (links (bucket_up (fun i _ => i) two_jpegs)) 0
                       two_jpegs [url_a; url_b]).
  { repeat constructor; eexists; split; reflexivity. }
  split; [exact F|].
  destruct (links_in_order (bucket_up (fun i _ => i) two_jpegs) (ask "cat") (str "cat") _ _
              eq_refl ltac:(discriminate) eq_refl eq_refl ltac:(discriminate) F)
    as (tr & E & D & _).
  exists tr. split; [exact E|exact D].
Defined.

(** Claim C5 as it is written fails when [random.choice] draws the same
    name for two images: the two responses hold the same link. *)
Lemma not_distinct_links :
  ~ distinct_links (bucket_up (fun _ _ => 0) two_jpegs) (ask "cat").
Proof.
  intros (urls & N & F).
  vm_compute in F.
  inversion F as [|? ? u0 ? urls0 [S0 _] F0]; subst.
  inversion F0 as [|? ? u1 ? urls1 [S1 _] F1]; subst.
  injection S0 as <-. injection S1 as <-.
  inversion N as [|? ? NI _]; subst. apply NI. left. reflexivity.
Qed.

(** ** Batches of attachments *)

Section Fallback.
Variables (number_of_images : Z) (last_message : pystr).

Let turn (i : nat) (data : bytes) : list event :=
  [attached (filename_of last_message i) data;
   response (summary number_of_images last_message)].

Lemma turns_attachments datas :
  forall index,
    attachments (concat (imap turn index datas))
    = imap (fun i data => (filename_of last_message i, data)) index datas.
Proof.
  induction datas as [|data datas IH]; intros index; [reflexivity|].
  simpl. rewrite IH. reflexivity.
Qed.

Lemma turns_responses datas :
  forall index,
    Forall (eq (summary number_of_images last_message))
           (responses (concat (imap turn index datas))).
Proof.
  induction datas as [|data datas IH]; intros index; simpl; auto.
Qed.

Lemma turns_last datas :
  datas <> [] ->
  forall index,
  exists tr, concat (imap turn index datas)
             = tr ++ [response (summary number_of_images last_message)].
Proof.
  induction datas as [|data datas IH]; intros N index; [contradiction|].
  destruct datas as [|data' datas].
  - eexists [_]. reflexivity.
  - destruct (IH ltac:(discriminate) (S index)) as (tr & E).
    exists (turn index data ++ tr).
    cbn [imap concat] in *. rewrite E, app_assoc. reflexivity.
Qed.

Lemma summary_count : contains (summary number_of_images last_message) (str_of_Z number_of_images).
Proof. exists [], (skipn (length (str_of_Z number_of_images)) (summary number_of_images last_message)).
  unfold summary. rewrite skipn_app, Nat.sub_diag, skipn_all. reflexivity.
Qed.

Lemma summary_prompt : contains (summary number_of_images last_message) last_message.
Proof.
  exists (str_of_Z number_of_images
          ++ str " image(s) generated by Imagen3 attached for " ++ quote),
         (quote ++ str ".").
  unfold summary. rewrite <- !app_assoc. reflexivity.
Qed.

End Fallback.

Lemma delivered_attached last_message datas :
  forall index,
    delivered (imap (fun i data => attached (filename_of last_message i) data) index datas)
    = imap (fun i data => attached (filename_of last_message i) data) index datas.
Proof.
  induction datas as [|data datas IH]; intros index; [reflexivity|].
  cbn [imap delivered filter]. fold (delivered
    (imap (fun i data => attached (filename_of last_message i) data) (S index) datas)).
  rewrite IH. reflexivity.
Qed.

(** The sentence of the specification on a batch of [N] images of which
    every publish fails: [N] attachments, then one summary that holds [N]
    and the cleaned prompt. *)
Definition attachments_then_summary (tr : list event) (N : nat) (cleaned_prompt : pystr) : Prop :=
  exists atts text,
    delivered tr = map (fun a => attached (fst a) (snd a)) atts ++ [response text] /\
    length atts = N /\
    contains text (str_of_nat N) /\
    contains text cleaned_prompt.

(** Claim C1, as the code has it: when the publish of every image of a
    batch of N >= 1 images, generated for a prompt that parses, fails and
    the chat takes the attachments, the
    handler attaches the N images, in the order of the batch; every response
    is the summary, the last thing the chat receives is a summary, and the
    summary holds the count asked for, which is not N when the model returns
    fewer images, and the cleaned prompt.  In the second file, where every
    image is attached, the chat receives the N attachments and then exactly
    one summary. *)
Theorem fallback_attaches_all (w : World) (request : QueryRequest) (prompt : pystr)
    (images : list GeneratedImage) (datas : list bytes) :
  last_content request = Ok prompt -> prompt <> [] -> parses prompt ->
  generate_images w (cleaned prompt) (count prompt) = Ok images ->
  images <> [] ->
  Forall2i (falls_back w request (cleaned prompt)) 0 images datas ->
  let text := summary (count prompt) (cleaned prompt) in
  (exists tr,
      GCS.get_response w request = (tr, Ok tt) /\
      attachments tr = imap (fun i data => (filename_of (cleaned prompt) i, data)) 0 datas /\
      length (attachments tr) = length images /\
      Forall (eq text) (responses tr) /\
      exists tr', delivered tr = tr' ++ [response text]) /\
  contains text (str_of_Z (count prompt)) /\
  contains text (cleaned prompt) /\
  (exists tr,
      OutGcp.get_response w request = (tr, Ok tt) /\
      delivered tr
      = imap (fun i data => attached (filename_of (cleaned prompt) i) data) 0 datas
        ++ [response text] /\
      length datas = length images).
Proof.
  intros H N Hp G I F text.
  pose proof (Forall2i_length _ _ _ _ F) as L.
  split; [|split; [apply summary_count|split; [apply summary_prompt|]]].
  - destruct (publish_all_fallback w request (cleaned prompt) (count prompt) _ _ _ F)
      as (tr & E & D).
    exists (generating (cleaned prompt) (count prompt) :: tr).
    split; [apply (GCS_run _ _ _ _ _ H N Hp G I E)|].
    change (attachments (generating (cleaned prompt) (count prompt) :: tr))
      with (attachments tr).
    change (responses (generating (cleaned prompt) (count prompt) :: tr))
      with (responses tr).
    change (delivered (generating (cleaned prompt) (count prompt) :: tr))
      with (delivered tr).
    rewrite <- attachments_delivered, <- responses_delivered, D, turns_attachments.
    repeat split.
    + rewrite imap_length. congruence.
    + apply turns_responses.
    + apply turns_last. destruct datas; [|discriminate].
      destruct images; [contradiction|discriminate L].
  - exists (generating (cleaned prompt) (count prompt)
             :: imap (fun i data => attached (filename_of (cleaned prompt) i) data) 0 datas
             ++ [response text]).
    split; [|split; [|congruence]].
    + apply (OutGcp_run _ _ _ _ _ H N Hp G I). apply attach_all_attached, F.
    + change (delivered (generating ?p ?n :: ?tr)) with (delivered tr).
      rewrite delivered_app, delivered_attached. reflexivity.
Qed.

Lemma fallback_attaches_all_witness :
  Forall2i (falls_back (bucket_down two_jpegs) (ask "a cat --number_of_images=2")
                       (str "a cat"))
           0 two_jpegs [[Byte.x00]; [Byte.x01]] /\
  exists tr,
    GCS.get_response (bucket_down two_jpegs) (ask "a cat --number_of_images=2")
    = (tr, Ok tt) /\
    attachments tr = [(str "a_cat_image_1.jpg", [Byte.x00]);
                      (str "a_cat_image_2.jpg", [Byte.x01])].
Proof.
  assert (F : Forall2i (falls_back (bucket_down two_jpegs)
                                   (ask "a cat --number_of_images=2") (str "a cat"))
                       0 two_jpegs [[Byte.x00]; [Byte.x01]]).
  { repeat constructor. }
  split; [exact F|].
  destruct (fallback_attaches_all (bucket_down two_jpegs)
              (ask "a cat --number_of_images=2")
              (str "a cat --number_of_images=2") _ _
              eq_refl ltac:(discriminate) eq_refl eq_refl ltac:(discriminate) F)
    as ((tr & E & A & _) & _).
  exists tr. split; [exact E|exact A].
Defined.

(** Claim C1 as it is written fails on the count: asked for three images,
    the model returns one, which is attached, and the summary speaks of 3
    images, not of 1. *)
Lemma not_attachments_then_summary :
  ~ attachments_then_summary
      (fst (GCS.get_response (bucket_down [jpeg [Byte.x00]])
                             (ask "cat --number_of_images=3")))
      1 (str "cat").
Proof.
  intros (atts & text & D & L & C & _).
  destruct atts as [|a [|a' atts]]; try discriminate L.
  vm_compute in D. injection D as _ _ <-.
  apply containsb_complete in C. vm_compute in C. discriminate C.
Qed.

(** The summary of line 177 stands inside the [except] of the loop: with
    two images to attach the chat receives it twice, once after every
    attachment, where the second file yields it once after the loop. *)
Lemma summary_after_every_attachment :
  delivered (fst (GCS.get_response (bucket_down two_jpegs) (ask "cat --number_of_images=2")))
  = [attached (str "cat_image_1.jpg") [Byte.x00]; response (summary 2 (str "cat"));
     attached (str "cat_image_2.jpg") [Byte.x01]; response (summary 2 (str "cat"))]
  /\ delivered (fst (OutGcp.get_response (bucket_down two_jpegs)
                                         (ask "cat --number_of_images=2")))
     = [attached (str "cat_image_1.jpg") [Byte.x00];
        attached (str "cat_image_2.jpg") [Byte.x01]; response (summary 2 (str "cat"))].
Proof. split; vm_compute; reflexivity. Qed.

(** * Further properties of the two files *)

(** ** The ends of the cleaned prompt *)

(** Extra X1: the cleaned prompt of a prompt with a directive neither begins
    nor ends with white space, and trimming it again changes nothing. *)
Theorem cleaned_is_trimmed (prompt : pystr) (m : Match) :
  re_search prompt = Some m ->
  (forall c r, cleaned prompt = c :: r -> is_space c = false) /\
  (forall r c, cleaned prompt = r ++ [c] -> is_space c = false) /\
  strip (cleaned prompt) = cleaned prompt.
Proof.
  intros E. unfold cleaned, parse_directive. rewrite E. cbn [fst].
  split; [|split].
  - intros c r. apply strip_head.
  - intros r c. apply strip_last.
  - apply strip_idempotent.
Qed.

Lemma cleaned_is_trimmed_witness :
  re_search cat_in_space = Some (mkMatch (str "a cat ") (str "7") (str " in space")) /\
  strip (cleaned cat_in_space) = cleaned cat_in_space.
Proof.
  assert (E : re_search cat_in_space
              = Some (mkMatch (str "a cat ") (str "7") (str " in space")))
    by (vm_compute; reflexivity).
  split; [exact E|].
  exact (proj2 (proj2 (cleaned_is_trimmed cat_in_space _ E))).
Defined.

(** ** The value of a directive *)

(** The handler of a request on whose prompt line 70 raises: the message of
    the exception is the one response, and the model is not called. *)
Lemma parse_error_response w request prompt e :
  last_content request = Ok prompt -> prompt <> [] ->
  parse_directive prompt = Raise e ->
  GCS.get_response w request = ([response (error_text e)], Ok tt) /\
  OutGcp.get_response w request = ([response (error_text e)], Ok tt).
Proof.
  intros H N P.
  unfold GCS.get_response, GCS.body, OutGcp.get_response, OutGcp.body.
  rewrite !(handler_raises _ _ _ _ _ H N P).
  unfold try_except_Exception. rewrite (parse_directive_Exception _ _ P).
  split; reflexivity.
Qed.

(** Extra X2: the value of the leftmost directive of a prompt is never
    negative.  When the directive has at most 4300 digits, the count is the
    value brought into the range from 1 to 4, and it is 1 exactly for the
    values 0 and 1.  When it has more, [int] raises [ValueError] on line 70:
    both handlers answer with the one response "Error: <message>" and do
    not call the model. *)
Theorem count_is_clamped_value (prompt pre ws1 ws2 ds post : pystr) :
  leftmost_directive prompt pre ws1 ws2 ds post ->
  (0 <= value ds)%Z /\
  (length ds <= 4300 ->
   exists last_message number_of_images,
     parse_directive prompt = Ok (last_message, number_of_images) /\
     number_of_images = Z.max 1 (Z.min 4 (value ds)) /\
     (number_of_images = 1%Z <-> (value ds = 0 \/ value ds = 1)%Z)) /\
  (4300 < length ds ->
   parse_directive prompt = Raise (too_many_digits ds) /\
   forall w request,
     last_content request = Ok prompt ->
     GCS.get_response w request
     = ([response (error_text (too_many_digits ds))], Ok tt) /\
     OutGcp.get_response w request
     = ([response (error_text (too_many_digits ds))], Ok tt)).
Proof.
  intros L.
  assert (V : (0 <= value ds)%Z) by apply value_nonneg, (leftmost_parts L).
  pose proof (parse_leftmost L) as P.
  split; [exact V|]. split; intros D.
  - destruct (Nat.ltb_spec int_max_str_digits (length ds)) as [B|_];
      [unfold int_max_str_digits in B; lia|].
    exists (strip (re_sub prompt)), (clamp (value ds)).
    split; [exact P|]. rewrite clamp_max_min. split; [reflexivity|lia].
  - destruct (Nat.ltb_spec int_max_str_digits (length ds)) as [_|B];
      [|unfold int_max_str_digits in B; lia].
    split; [exact P|]. intros w request H.
    apply (parse_error_response w request prompt _ H); [|exact P].
    rewrite (leftmost_split L). intros Z.
    apply (f_equal (@length ascii)) in Z. unfold directive in Z.
    rewrite !length_app in Z. change (length flag) with 18 in Z. simpl in Z. lia.
Qed.

Lemma count_is_clamped_value_witness :
  leftmost_directive cat_in_space (str "a cat ") [] [] (str "7") (str " in space") /\
  length (str "7") <= 4300 /\
  exists last_message,
    parse_directive cat_in_space = Ok (last_message, Z.max 1 (Z.min 4 7)).
Proof.
  assert (D : length (str "7") <= 4300) by (vm_compute; lia).
  split; [exact cat_in_space_leftmost|]. split; [exact D|].
  destruct (proj1 (proj2 (count_is_clamped_value _ _ _ _ _ _ cat_in_space_leftmost)) D)
    as (lm & n & P & -> & _).
  exists lm. exact P.
Defined.

(** ** A prompt with one directive *)


Lemma parse_single_directive pre ws1 ws2 ds post :
  ~ In "-"%char pre -> ~ In "-"%char post ->
  directive_parts ws1 ws2 ds ->
  (forall c r, post = c :: r -> is_digit c = false) ->
  length ds <= 4300 ->
  parse_directive (pre ++ directive ws1 ws2 ds ++ post)
  = Ok (strip (pre ++ post), clamp (value ds)).
Proof.
  intros Hpre Hpost P D B.
  pose proof (re_search_at pre ws1 ws2 ds post Hpre P) as E.
  rewrite (span_stuck is_digit post D) in E. cbn [fst snd] in E.
  rewrite app_nil_r in E.
  rewrite parse_directive_eq, E. cbn [group1].
  destruct (Nat.ltb_spec int_max_str_digits (length ds)) as [B'|_];
    [unfold int_max_str_digits in B'; lia|].
  unfold cleaned, count. rewrite E. cbn [group1]. do 2 f_equal.
  unfold re_sub. rewrite re_split_eq, E. cbn [before after].
  rewrite re_split_eq, (re_search_no_hyphen _ Hpost). cbn [concat].
  rewrite app_nil_r. reflexivity.
Qed.

(** Extra X3: a prompt that holds one directive of at most 4300 digits, in
    text without a hyphen and before a character that is no digit, is
    cleaned to the text around the directive, trimmed; its count is the
    value of the directive brought into the range from 1 to 4; and parsing
    the cleaned prompt again changes nothing. *)
Theorem single_directive (pre ws1 ws2 ds post : pystr) :
  ~ In "-"%char pre -> ~ In "-"%char post ->
  directive_parts ws1 ws2 ds ->
  (forall c r, post = c :: r -> is_digit c = false) ->
  length ds <= 4300 ->
  parse_directive (pre ++ directive ws1 ws2 ds ++ post)
  = Ok (strip (pre ++ post), Z.max 1 (Z.min 4 (value ds)))
  /\ parse_directive (strip (pre ++ post)) = Ok (strip (pre ++ post), 1%Z).
Proof.
  intros Hpre Hpost P D B.
  split.
  - rewrite <- clamp_max_min. apply parse_single_directive; assumption.
  - apply parse_no_directive, no_hyphen_no_directive.
    intros I. apply strip_incl in I.
    apply in_app_or in I as [?|?]; contradiction.
Qed.

Lemma single_directive_witness :
  ~ In "-"%char (str "a cat ") /\ ~ In "-"%char (str " in space") /\
  directive_parts [] [] (str "7") /\ length (str "7") <= 4300 /\
  parse_directive cat_in_space = Ok (str "a cat  in space", 4%Z).
Proof.
  assert (H1 : ~ In "-"%char (str "a cat ")).
  { vm_compute. intros H. repeat (destruct H as [H|H]; [discriminate H|]). exact H. }
  assert (H2 : ~ In "-"%char (str " in space")).
  { vm_compute. intros H. repeat (destruct H as [H|H]; [discriminate H|]). exact H. }
  assert (P : directive_parts [] [] (str "7")).
  { constructor; try reflexivity. discriminate. }
  assert (D : forall c r, str " in space" = c :: r -> is_digit c = false).
  { intros c r E. injection E as <- _. reflexivity. }
  assert (B : length (str "7") <= 4300) by (vm_compute; lia).
  split; [exact H1|]. split; [exact H2|]. split; [exact P|]. split; [exact B|].
  exact (proj1 (single_directive (str "a cat ") [] [] (str "7") (str " in space")
                  H1 H2 P D B)).
Defined.

(** ** The calls of the model *)

Lemma attach_all_generations w request last_message images :
  forall index,
    generations (fst (OutGcp.attach_all w request last_message index images)) = [].
Proof.
  induction images as [|img images IH]; intros index; [reflexivity|].
  cbn [OutGcp.attach_all].
  destruct (_pil_image img) as [pil|].
  - destruct (save pil) as [data|e]; [|reflexivity].
    rewrite bind_call_Ok. cbn zeta.
    destruct (post_message_attachment w index (message_id request) data
                (filename_of last_message index)) as [[]|e]; [|reflexivity].
    rewrite bind_call_Ok, bind_emit. cbn [fst generations flat_map app]. apply IH.
  - rewrite bind_ret. apply IH.
Qed.

(** The handler around a loop that does not call the model calls it once,
    with the cleaned prompt and the count. *)
Lemma handler_generations w publishing request prompt :
  (forall last_message number_of_images images,
      generations (fst (publishing last_message number_of_images images)) = []) ->
  last_content request = Ok prompt -> prompt <> [] -> parses prompt ->
  generations (fst (try_except_Exception (handler w publishing request)
                                         (fun e => yield (error_text e))))
  = [(cleaned prompt, count prompt)].
Proof.
  intros G H N P.
  rewrite try_generations, (handler_prompt _ _ _ _ H N P), bind_emit.
  cbn [fst generations flat_map app]. f_equal.
  destruct (generate_images w (cleaned prompt) (count prompt)) as [images|e];
    [|reflexivity].
  rewrite bind_call_Ok. destruct (length images =? 0); [reflexivity|apply G].
Qed.

Lemma handler_no_prompt w publishing request :
  (forall prompt, last_content request = Ok prompt -> prompt = []) ->
  generations (fst (try_except_Exception (handler w publishing request)
                                         (fun e => yield (error_text e)))) = [].
Proof.
  intros H. rewrite try_generations. unfold handler.
  destruct (last_content request) as [prompt|e]; [|reflexivity].
  rewrite (H prompt eq_refl), bind_call_Ok. reflexivity.
Qed.

Lemma OutGcp_generations w request prompt :
  last_content request = Ok prompt -> prompt <> [] -> parses prompt ->
  generations (fst (OutGcp.get_response w request)) = [(cleaned prompt, count prompt)].
Proof.
  apply handler_generations. intros lm n images.
  pose proof (attach_all_generations w request lm images 0) as A.
  destruct (OutGcp.attach_all w request lm 0 images) as [tr [[]|e]]; simpl in A.
  - rewrite bind_Ok. cbn [fst]. rewrite generations_app, A. reflexivity.
  - exact A.
Qed.

(** Extra X5: whatever the request and the collaborators, both handlers call
    the model at most once, and with a count from 1 to 4. *)
Theorem model_called_at_most_once (w : World) (request : QueryRequest) :
  (length (generations (fst (GCS.get_response w request))) <= 1 /\
   Forall (fun call => (1 <= snd call <= 4)%Z)
          (generations (fst (GCS.get_response w request)))) /\
  (length (generations (fst (OutGcp.get_response w request))) <= 1 /\
   Forall (fun call => (1 <= snd call <= 4)%Z)
          (generations (fst (OutGcp.get_response w request)))).
Proof.
  destruct (last_content request) as [[|c p]|e] eqn:L.
  - assert (H : forall prompt, last_content request = Ok prompt -> prompt = [])
      by (intros prompt E; congruence).
    unfold GCS.get_response, GCS.body, OutGcp.get_response, OutGcp.body.
    rewrite !(handler_no_prompt _ _ _ H). repeat split; auto.
  - destruct (parse_directive (c :: p)) as [[lm n]|e] eqn:P.
    + destruct (parse_directive_Ok _ _ _ P) as [-> ->].
      rewrite (proj2 (prompt_generates w request (c :: p) L ltac:(discriminate) P)).
      rewrite (OutGcp_generations w request (c :: p) L ltac:(discriminate) P).
      repeat split; auto; repeat constructor; apply count_range.
    + destruct (parse_error_response w request (c :: p) e L ltac:(discriminate) P)
        as [-> ->].
      repeat split; auto.
  - assert (H : forall prompt, last_content request = Ok prompt -> prompt = [])
      by (intros prompt E; congruence).
    unfold GCS.get_response, GCS.body, OutGcp.get_response, OutGcp.body.
    rewrite !(handler_no_prompt _ _ _ H). repeat split; auto.
Qed.




From Stdlib Require DecimalNat.

(** ** File names *)

Lemma string_of_uint_digits d :
  forallb is_digit (list_ascii_of_string (NilEmpty.string_of_uint d)) = true.
Proof. induction d; simpl; auto. Qed.

Lemma str_of_nat_digits n : forallb is_digit (str_of_nat n) = true.
Proof.
  unfold str_of_nat, str, NilZero.string_of_uint.
  destruct (Nat.to_uint n); try apply string_of_uint_digits. reflexivity.
Qed.

Lemma to_uint_not_Nil n : Nat.to_uint n <> Decimal.Nil.
Proof.
  intros E. pose proof (DecimalNat.Unsigned.of_to n) as H. rewrite E in H.
  simpl in H. subst n. discriminate E.
Qed.

Lemma str_of_nat_inj n n' : str_of_nat n = str_of_nat n' -> n = n'.
Proof.
  unfold str_of_nat, str. intros E.
  apply (f_equal string_of_list_ascii) in E.
  rewrite !string_of_list_ascii_of_string in E.
  apply DecimalNat.Unsigned.to_uint_inj.
  pose proof (NilZero.usu _ (to_uint_not_Nil n)) as U.
  pose proof (NilZero.usu _ (to_uint_not_Nil n')) as U'.
  rewrite E in U. congruence.
Qed.

Lemma replace_space_no_space s : ~ In " "%char (replace_space s).
Proof.
  unfold replace_space. intros I. apply in_map_iff in I as (c & E & _).
  destruct (Ascii.eqb c " "%char) eqn:Q; [discriminate E|].
  subst c. discriminate Q.
Qed.

Lemma replace_space_length s : length (replace_space s) = length s.
Proof. apply length_map. Qed.

(** Extra X6: the file name of an attachment holds no space, whatever the
    prompt.  It is the first ten characters of the prompt (all of it, when
    it is shorter), each of them kept as it is but for a space, which
    becomes an underscore; then [_image_], the position of the image
    counted from 1 in decimal digits, and [.jpg]. *)
Theorem filename_shape (last_message : pystr) (index : nat) :
  ~ In " "%char (filename_of last_message index) /\
  exists sanitized_prompt,
    filename_of last_message index
    = sanitized_prompt ++ str "_image_" ++ str_of_nat (S index) ++ str ".jpg" /\
    length sanitized_prompt = Nat.min 10 (length last_message) /\
    (forall i c,
        i < 10 -> nth_error last_message i = Some c ->
        nth_error sanitized_prompt i
        = Some (if Ascii.eqb c " "%char then "_"%char else c)) /\
    forallb is_digit (str_of_nat (S index)) = true.
Proof.
  split.
  - unfold filename_of. intros I.
    apply in_app_or in I as [I|I]; [apply replace_space_no_space in I; exact I|].
    apply in_app_or in I as [I|I].
    { vm_compute in I. repeat (destruct I as [I|I]; [discriminate I|]). exact I. }
    apply in_app_or in I as [I|I].
    + pose proof (str_of_nat_digits (index + 1)) as D.
      rewrite forallb_forall in D. apply D in I. discriminate I.
    + vm_compute in I. repeat (destruct I as [I|I]; [discriminate I|]). exact I.
  - exists (replace_space (slice_to 10 last_message)). split.
    + unfold filename_of. rewrite Nat.add_1_r. reflexivity.
    + split; [rewrite replace_space_length; apply length_firstn|].
      split; [|apply str_of_nat_digits].
      intros i c B E. unfold replace_space, slice_to.
      rewrite nth_error_map, nth_error_firstn.
      destruct (Nat.ltb_spec i 10) as [_|B']; [|lia].
      rewrite E. reflexivity.
Qed.

Lemma filename_of_inj last_message index index' :
  filename_of last_message index = filename_of last_message index' -> index = index'.
Proof.
  unfold filename_of. intros E.
  apply app_inv_head in E. apply app_inv_head in E. apply app_inv_tail in E.
  apply str_of_nat_inj in E. lia.
Qed.

(** Extra X7: within one batch no two images get the same file name. *)
Theorem filenames_distinct (last_message : pystr) (n : nat) :
  NoDup (map (filename_of last_message) (seq 0 n)) /\
  forall index index',
    filename_of last_message index = filename_of last_message index' -> index = index'.
Proof.
  split.
  - pose proof (seq_NoDup n 0) as N.
    induction N as [|i l NI _ IH]; [constructor|].
    cbn [map]. constructor; [|exact IH].
    intros I. apply in_map_iff in I as (j & E & J).
    apply filename_of_inj in E. subst j. contradiction.
  - apply filename_of_inj.
Qed.

(** ** Storage names *)

(** Extra X8: whatever [random.choice] draws, the storage name of an image
    is 24 letters and digits followed by [.jpg]. *)
Theorem random_filename_shape (w : World) (index : nat) :
  length (GCS.generate_random_string w index) = 24 /\
  Forall (fun c => In c GCS.letters_and_digits) (GCS.generate_random_string w index) /\
  GCS.random_filename w index = GCS.generate_random_string w index ++ str ".jpg" /\
  length (GCS.random_filename w index) = 28.
Proof.
  assert (L : length (GCS.generate_random_string w index) = 24).
  { unfold GCS.generate_random_string. rewrite length_map. apply length_seq. }
  split; [exact L|]. split; [|split; [reflexivity|]].
  - unfold GCS.generate_random_string. apply Forall_forall. intros c I.
    apply in_map_iff in I as (i & <- & _). apply nth_In.
    change (length GCS.letters_and_digits) with 62.
    apply Nat.mod_upper_bound. discriminate.
  - unfold GCS.random_filename. rewrite length_app, L. reflexivity.
Qed.

(** ** Any batch *)

(** [P index a] for every element of a list with its position, from
    [index] on. *)
Fixpoint alli {A : Type} (P : nat -> A -> Prop) (index : nat) (l : list A) : Prop :=
  match l with
  | [] => True
  | a :: l' => P index a /\ alli P (S index) l'
  end.

Definition has_pixels (img_obj : GeneratedImage) : bool :=
  match _pil_image img_obj with
  | Some _ => true
  | None => false
  end.

(** The image at [index] can be saved, and the chat takes it when the first
    file offers it as an attachment. *)
Definition calm (w : World) (request : QueryRequest) (last_message : pystr)
    (index : nat) (img_obj : GeneratedImage) : Prop :=
  match _pil_image img_obj with
  | None => True
  | Some generated_image =>
      match save generated_image with
      | Raise _ => False
      | Ok image_bytes =>
          link_of w index image_bytes = None ->
          post_message_attachment w index (message_id request) image_bytes
            (filename_of last_message index) = Ok tt
      end
  end.

(** The image at [index] can be saved, and the chat takes it. *)
Definition attachable (w : World) (request : QueryRequest) (last_message : pystr)
    (index : nat) (img_obj : GeneratedImage) : Prop :=
  match _pil_image img_obj with
  | None => True
  | Some generated_image =>
      match save generated_image with
      | Raise _ => False
      | Ok image_bytes =>
          post_message_attachment w index (message_id request) image_bytes
            (filename_of last_message index) = Ok tt
      end
  end.

(** What the chat receives for the image at [index] from the first file:
    nothing, the link, or the attachment and the summary. *)
Definition artifact (w : World) (last_message : pystr) (number_of_images : Z)
    (index : nat) (img_obj : GeneratedImage) : list event :=
  match jpeg_of img_obj with
  | None => []
  | Some image_bytes =>
      match link_of w index image_bytes with
      | Some signed_url =>
          [response (GCS.markdown_image (filename_of last_message index) signed_url)]
      | None =>
          [attached (filename_of last_message index) image_bytes;
           response (summary number_of_images last_message)]
      end
  end.

(** What the chat receives for the image at [index] from the second file. *)
Definition attachment_of (last_message : pystr) (index : nat)
    (img_obj : GeneratedImage) : list event :=
  match jpeg_of img_obj with
  | None => []
  | Some image_bytes => [attached (filename_of last_message index) image_bytes]
  end.

Lemma responses_app tr tr' : responses (tr ++ tr') = responses tr ++ responses tr'.
Proof. apply flat_map_app. Qed.

Lemma attachments_app tr tr' : attachments (tr ++ tr') = attachments tr ++ attachments tr'.
Proof. apply flat_map_app. Qed.

Lemma publish_all_artifacts w request last_message number_of_images images :
  forall index,
    alli (calm w request last_message) index images ->
    exists tr,
      GCS.publish_all w request last_message number_of_images index images = (tr, Ok tt) /\
      delivered tr = concat (imap (artifact w last_message number_of_images) index images).
Proof.
  induction images as [|img images IH]; intros index C.
  - exists []. split; reflexivity.
  - destruct C as [C0 C]. destruct (IH _ C) as (tr & E & D).
    unfold calm in C0. cbn [imap concat]. unfold artifact at 1, jpeg_of.
    destruct (_pil_image img) as [pil|] eqn:Ep.
    + destruct (save pil) as [data|e] eqn:Es; [|contradiction].
      assert (J : jpeg_of img = Some data) by (unfold jpeg_of; rewrite Ep, Es; reflexivity).
      destruct (link_of w index data) as [url|] eqn:L.
      * eexists. split.
        -- rewrite (publish_all_step _ _ _ _ _ _ _ _ _ J
                      (publish_link _ request last_message number_of_images _ _ _ L)), E.
           reflexivity.
        -- cbn [fst]. rewrite delivered_app, D. reflexivity.
      * destruct (publish_fallback _ _ _ number_of_images _ _ L (C0 eq_refl))
          as (tr1 & E1 & D1).
        eexists. split.
        -- rewrite (publish_all_step _ _ _ _ _ _ _ _ _ J E1), E. reflexivity.
        -- cbn [fst]. rewrite delivered_app, D1, D. reflexivity.
    + exists tr. split; [|exact D].
      rewrite publish_all_skip by exact Ep. exact E.
Qed.

Lemma artifacts_responses w request last_message number_of_images images :
  forall index,
    alli (calm w request last_message) index images ->
    length (responses (concat (imap (artifact w last_message number_of_images) index images)))
    = length (filter has_pixels images).
Proof.
  induction images as [|img images IH]; intros index C; [reflexivity|].
  destruct C as [C0 C]. cbn [imap concat filter].
  rewrite responses_app, length_app, (IH _ C).
  unfold calm in C0. unfold artifact, jpeg_of, has_pixels.
  destruct (_pil_image img) as [pil|]; [|reflexivity].
  destruct (save pil) as [data|e]; [|contradiction].
  destruct (link_of w index data); reflexivity.
Qed.

(** Extra X9: a batch of the first file, generated for a prompt that
    parses, in which links, attachments and images without pixel data are
    mixed.  When every image can be saved and
    the chat takes the attachments it is offered, the handler ends without
    raising, whatever the bucket and the signer do; the chat receives, in
    the order of the batch, nothing for an image without pixel data, the
    link for an image that was published, and the attachment followed by
    the summary for an image that was not; so that there is one response
    for every image with pixel data. *)
Theorem one_outcome_per_image (w : World) (request : QueryRequest) (prompt : pystr)
    (images : list GeneratedImage) :
  last_content request = Ok prompt -> prompt <> [] -> parses prompt ->
  generate_images w (cleaned prompt) (count prompt) = Ok images ->
  images <> [] ->
  alli (calm w request (cleaned prompt)) 0 images ->
  exists tr,
    GCS.get_response w request = (tr, Ok tt) /\
    delivered tr = concat (imap (artifact w (cleaned prompt) (count prompt)) 0 images) /\
    length (responses tr) = length (filter has_pixels images).
Proof.
  intros H N Hp G I C.
  destruct (publish_all_artifacts w request (cleaned prompt) (count prompt) images 0 C)
    as (tr & E & D).
  exists (generating (cleaned prompt) (count prompt) :: tr).
  split; [apply (GCS_run _ _ _ _ _ H N Hp G I E)|].
  split; [exact D|].
  change (responses (generating (cleaned prompt) (count prompt) :: tr)) with (responses tr).
  rewrite <- responses_delivered, D.
  apply (artifacts_responses w request), C.
Qed.

(** A world in which the bucket takes the first image only. *)
Definition first_only (images : list GeneratedImage) : World :=
  mkWorld (fun _ _ => Ok images) (fun i _ => i)
          (fun i _ _ => match i with 0 => Ok tt | _ => Raise down end)
          (fun _ name => Ok (str "https://storage.googleapis.com/b/" ++ name))
          (fun _ _ _ _ => Ok tt).

Definition three_images : list GeneratedImage :=
  [jpeg [Byte.x00]; no_pixels; jpeg [Byte.x02]].

Lemma one_outcome_per_image_witness :
  alli (calm (first_only three_images) (ask "cat") (str "cat")) 0 three_images /\
  exists tr,
    GCS.get_response (first_only three_images) (ask "cat") = (tr, Ok tt) /\
    delivered tr
    = [response (GCS.markdown_image (str "cat_image_1.jpg") url_a);
       attached (str "cat_image_3.jpg") [Byte.x02];
       response (summary 1 (str "cat"))].
Proof.
  assert (C : alli (calm (first_only three_images) (ask "cat") (str "cat")) 0 three_images).
  { repeat split. }
  split; [exact C|].
  destruct (one_outcome_per_image (first_only three_images) (ask "cat") (str "cat")
              three_images eq_refl ltac:(discriminate) eq_refl eq_refl ltac:(discriminate) C)
    as (tr & E & D & _).
  exists tr. split; [exact E|exact D].
Defined.

Lemma attach_all_attachments w request last_message images :
  forall index,
    alli (attachable w request last_message) index images ->
    OutGcp.attach_all w request last_message index images
    = (concat (imap (attachment_of last_message) index images), Ok tt).
Proof.
  induction images as [|img images IH]; intros index C; [reflexivity|].
  destruct C as [C0 C]. unfold attachable in C0.
  cbn [OutGcp.attach_all imap concat]. unfold attachment_of at 1, jpeg_of.
  destruct (_pil_image img) as [pil|].
  - destruct (save pil) as [data|e]; [|contradiction].
    rewrite bind_call_Ok. cbn zeta. rewrite C0, bind_call_Ok, bind_emit, (IH _ C).
    reflexivity.
  - rewrite bind_ret, (IH _ C). reflexivity.
Qed.

Lemma attachment_of_responses last_message images :
  forall index, responses (concat (imap (attachment_of last_message) index images)) = [].
Proof.
  induction images as [|img images IH]; intros index; [reflexivity|].
  cbn [imap concat]. rewrite responses_app, IH.
  unfold attachment_of. destruct (jpeg_of img); reflexivity.
Qed.

Lemma attachment_of_count w request last_message images :
  forall index,
    alli (attachable w request last_message) index images ->
    length (attachments (concat (imap (attachment_of last_message) index images)))
    = length (filter has_pixels images).
Proof.
  induction images as [|img images IH]; intros index C; [reflexivity|].
  destruct C as [C0 C]. cbn [imap concat filter].
  rewrite attachments_app, length_app, (IH _ C).
  unfold attachable in C0. unfold attachment_of, jpeg_of, has_pixels.
  destruct (_pil_image img) as [pil|]; [|reflexivity].
  destruct (save pil); [reflexivity|contradiction].
Qed.

(** Extra X10: a batch of the second file, generated for a prompt that
    parses.  When every image can be saved
    and the chat takes every attachment, the chat receives the images with
    pixel data as attachments, in the order of the batch, and after them one
    response, the summary, whose count is the count asked for, however many
    images were attached. *)
Theorem attachments_then_one_summary (w : World) (request : QueryRequest)
    (prompt : pystr) (images : list GeneratedImage) :
  last_content request = Ok prompt -> prompt <> [] -> parses prompt ->
  generate_images w (cleaned prompt) (count prompt) = Ok images ->
  images <> [] ->
  alli (attachable w request (cleaned prompt)) 0 images ->
  OutGcp.get_response w request
  = (generating (cleaned prompt) (count prompt)
       :: concat (imap (attachment_of (cleaned prompt)) 0 images)
       ++ [response (summary (count prompt) (cleaned prompt))], Ok tt)
  /\ responses (fst (OutGcp.get_response w request))
     = [summary (count prompt) (cleaned prompt)]
  /\ length (attachments (fst (OutGcp.get_response w request)))
     = length (filter has_pixels images).
Proof.
  intros H N Hp G I C.
  pose proof (OutGcp_run _ _ _ _ _ H N Hp G I
                (attach_all_attachments w request (cleaned prompt) images 0 C)) as E.
  rewrite E. split; [reflexivity|]. cbn [fst].
  change (responses (generating ?p ?n :: ?tr)) with (responses tr).
  change (attachments (generating ?p ?n :: ?tr)) with (attachments tr).
  rewrite responses_app, attachments_app, attachment_of_responses.
  cbn [responses attachments flat_map app]. rewrite app_nil_r.
  split; [reflexivity|]. apply (attachment_of_count w request), C.
Qed.

Lemma attachments_then_one_summary_witness :
  alli (attachable (bucket_down three_images) (ask "cat") (str "cat")) 0 three_images /\
  OutGcp.get_response (bucket_down three_images) (ask "cat")
  = ([generating (str "cat") 1;
      attached (str "cat_image_1.jpg") [Byte.x00];
      attached (str "cat_image_3.jpg") [Byte.x02];
      response (summary 1 (str "cat"))], Ok tt).
Proof.
  assert (C : alli (attachable (bucket_down three_images) (ask "cat") (str "cat"))
                   0 three_images).
  { repeat split. }
  split; [exact C|].
  exact (proj1 (attachments_then_one_summary (bucket_down three_images) (ask "cat")
                  (str "cat") three_images
                  eq_refl ltac:(discriminate) eq_refl eq_refl ltac:(discriminate) C)).
Defined.


Lemma attachable_calm w request last_message images :
  forall index,
    alli (attachable w request last_message) index images ->
    alli (calm w request last_message) index images.
Proof.
  induction images as [|img images IH]; intros index C; [exact I|].
  destruct C as [C0 C]. split; [|apply IH, C].
  unfold attachable in C0. unfold calm.
  destruct (_pil_image img) as [pil|]; [|exact I].
  destruct (save pil); auto.
Qed.

Lemma artifact_attachments w last_message number_of_images images :
  (forall index data, link_of w index data = None) ->
  forall index,
    attachments (concat (imap (artifact w last_message number_of_images) index images))
    = attachments (concat (imap (attachment_of last_message) index images)).
Proof.
  intros L. induction images as [|img images IH]; intros index; [reflexivity|].
  cbn [imap concat]. rewrite !attachments_app, IH. f_equal.
  unfold artifact, attachment_of. destruct (jpeg_of img) as [data|]; [|reflexivity].
  rewrite L. reflexivity.
Qed.

(** Extra X11: when the bucket is out of reach for every image of a batch
    generated for a prompt that parses, the first file attaches what the second file attaches: the same images under the
    same names in the same order. *)
Theorem same_attachments (w : World) (request : QueryRequest) (prompt : pystr)
    (images : list GeneratedImage) :
  last_content request = Ok prompt -> prompt <> [] -> parses prompt ->
  generate_images w (cleaned prompt) (count prompt) = Ok images ->
  images <> [] ->
  alli (attachable w request (cleaned prompt)) 0 images ->
  (forall index data, link_of w index data = None) ->
  attachments (fst (GCS.get_response w request))
  = attachments (fst (OutGcp.get_response w request)).
Proof.
  intros H N Hp G I C L.
  destruct (publish_all_artifacts w request (cleaned prompt) (count prompt) images 0
              (attachable_calm _ _ _ _ _ C)) as (tr & E & D).
  rewrite (GCS_run _ _ _ _ _ H N Hp G I E).
  rewrite (OutGcp_run _ _ _ _ _ H N Hp G I
             (attach_all_attachments w request (cleaned prompt) images 0 C)).
  cbn [fst]. change (attachments (generating ?p ?n :: ?t)) with (attachments t).
  rewrite <- (attachments_delivered tr), D.
  change (attachments (generating ?p ?n :: ?t)) with (attachments t).
  rewrite attachments_app, app_nil_r. apply artifact_attachments, L.
Qed.

Lemma same_attachments_witness :
  alli (attachable (bucket_down three_images) (ask "cat") (str "cat")) 0 three_images /\
  attachments (fst (GCS.get_response (bucket_down three_images) (ask "cat")))
  = attachments (fst (OutGcp.get_response (bucket_down three_images) (ask "cat"))).
Proof.
  assert (C : alli (attachable (bucket_down three_images) (ask "cat") (str "cat"))
                   0 three_images).
  { repeat split. }
  split; [exact C|].
  exact (same_attachments (bucket_down three_images) (ask "cat") (str "cat") three_images
           eq_refl ltac:(discriminate) eq_refl eq_refl ltac:(discriminate) C
           (fun _ _ => eq_refl)).
Defined.

(** ** A batch that is cut short *)

Lemma bind_assoc {A B C : Type} (m : gen A) (f : A -> gen B) (g : B -> gen C) :
  bind (bind m f) g = bind m (fun a => bind (f a) g).
Proof.
  unfold bind. destruct m as [tr [a|e]]; [|reflexivity].
  destruct (f a) as [tr1 [b|e1]]; [|reflexivity].
  destruct (g b) as [tr2 r]. rewrite app_assoc. reflexivity.
Qed.

(** The loop over two batches, one after the other, is the loop over the
    first and then the loop over the second, with the positions going on. *)
Lemma publish_all_app w request last_message number_of_images images1 images2 :
  forall index,
    GCS.publish_all w request last_message number_of_images index (images1 ++ images2)
    = (GCS.publish_all w request last_message number_of_images index images1 ;;
       GCS.publish_all w request last_message number_of_images
         (index + length images1) images2).
Proof.
  induction images1 as [|img images1 IH]; intros index.
  - cbn [app GCS.publish_all length]. rewrite bind_ret, Nat.add_0_r. reflexivity.
  - cbn [app GCS.publish_all length]. rewrite bind_assoc, IH, Nat.add_succ_r.
    reflexivity.
Qed.

Lemma attach_all_app w request last_message images1 images2 :
  forall index,
    OutGcp.attach_all w request last_message index (images1 ++ images2)
    = (OutGcp.attach_all w request last_message index images1 ;;
       OutGcp.attach_all w request last_message (index + length images1) images2).
Proof.
  induction images1 as [|img images1 IH]; intros index.
  - cbn [app OutGcp.attach_all length]. rewrite bind_ret, Nat.add_0_r. reflexivity.
  - cbn [app OutGcp.attach_all length]. rewrite bind_assoc, IH, Nat.add_succ_r.
    reflexivity.
Qed.

(** Extra X12: in the first file an image that cannot be saved ends the
    batch, generated for a prompt that parses.  What was delivered for the images before it stays delivered,
    nothing is done for the images after it, and the exception, when it is
    an instance of [Exception], becomes the last response; otherwise it
    leaves the handler. *)
Theorem save_failure_ends_batch (w : World) (request : QueryRequest) (prompt : pystr)
    (done : list GeneratedImage) (img_obj : GeneratedImage) (left : list GeneratedImage)
    (generated_image : PilImage) (tr : list event) (e : exn) :
  last_content request = Ok prompt -> prompt <> [] -> parses prompt ->
  generate_images w (cleaned prompt) (count prompt) = Ok (done ++ img_obj :: left) ->
  GCS.publish_all w request (cleaned prompt) (count prompt) 0 done = (tr, Ok tt) ->
  _pil_image img_obj = Some generated_image ->
  save generated_image = Raise e ->
  GCS.get_response w request
  = if is_Exception e
    then (generating (cleaned prompt) (count prompt) :: tr ++ [response (error_text e)],
          Ok tt)
    else (generating (cleaned prompt) (count prompt) :: tr, Raise e).
Proof.
  intros H N Hp G D P S.
  assert (I : done ++ img_obj :: left <> []) by (destruct done; discriminate).
  unfold GCS.get_response, GCS.body.
  rewrite (handler_images _ _ _ _ _ H N Hp G I), publish_all_app, D, bind_Ok.
  cbn [GCS.publish_all]. rewrite P, S. cbn [fst snd call bind app].
  rewrite app_nil_r. unfold try_except_Exception.
  destruct (is_Exception e); reflexivity.
Qed.

Definition broken : GeneratedImage :=
  mkImage (Some (mkPil (Raise (mkExn true (str "cannot write mode RGBA as JPEG"))))).

Lemma save_failure_ends_batch_witness :
  GCS.publish_all (bucket_down [jpeg [Byte.x00]; broken; jpeg [Byte.x02]]) (ask "cat")
    (str "cat") 1 0 [jpeg [Byte.x00]]
  = ([attached (str "cat_image_1.jpg") [Byte.x00]; response (summary 1 (str "cat"))], Ok tt)
  /\ GCS.get_response (bucket_down [jpeg [Byte.x00]; broken; jpeg [Byte.x02]]) (ask "cat")
     = ([generating (str "cat") 1;
         attached (str "cat_image_1.jpg") [Byte.x00]; response (summary 1 (str "cat"));
         response (str "Error: cannot write mode RGBA as JPEG")], Ok tt).
Proof.
  split; [reflexivity|].
  exact (save_failure_ends_batch
           (bucket_down [jpeg [Byte.x00]; broken; jpeg [Byte.x02]]) (ask "cat") (str "cat")
           [jpeg [Byte.x00]] broken [jpeg [Byte.x02]] _ _ _
           eq_refl ltac:(discriminate) eq_refl eq_refl eq_refl eq_refl eq_refl).
Defined.

(** Extra X13: in the second file an attachment that the chat refuses ends
    the batch, generated for a prompt that parses.  The attachments before it stay delivered, the image and the
    images after it are not attached, no summary is yielded, and the
    exception, when it is an instance of [Exception], becomes the one
    response; otherwise it leaves the handler. *)
Theorem refused_attachment_ends_batch (w : World) (request : QueryRequest)
    (prompt : pystr) (done : list GeneratedImage) (img_obj : GeneratedImage)
    (left : list GeneratedImage) (image_bytes : bytes) (tr : list event) (e : exn) :
  last_content request = Ok prompt -> prompt <> [] -> parses prompt ->
  generate_images w (cleaned prompt) (count prompt) = Ok (done ++ img_obj :: left) ->
  OutGcp.attach_all w request (cleaned prompt) 0 done = (tr, Ok tt) ->
  jpeg_of img_obj = Some image_bytes ->
  post_message_attachment w (length done) (message_id request) image_bytes
    (filename_of (cleaned prompt) (length done)) = Raise e ->
  OutGcp.get_response w request
  = if is_Exception e
    then (generating (cleaned prompt) (count prompt) :: tr ++ [response (error_text e)],
          Ok tt)
    else (generating (cleaned prompt) (count prompt) :: tr, Raise e).
Proof.
  intros H N Hp G D J P.
  assert (I : done ++ img_obj :: left <> []) by (destruct done; discriminate).
  apply jpeg_of_Some in J as (pil & E1 & E2).
  unfold OutGcp.get_response, OutGcp.body.
  rewrite (handler_images _ _ _ _ _ H N Hp G I), attach_all_app, D, bind_Ok.
  cbn [OutGcp.attach_all Nat.add]. rewrite E1, E2, bind_call_Ok. cbn zeta.
  rewrite P. cbn [fst snd call bind app].
  rewrite app_nil_r. unfold try_except_Exception.
  destruct (is_Exception e); reflexivity.
Qed.


Definition refused : exn := mkExn true (str "413 Payload Too Large").

(** A world in which the chat takes the first attachment only. *)
Definition chat_full (images : list GeneratedImage) : World :=
  mkWorld (fun _ _ => Ok images) (fun _ _ => 0)
          (fun _ _ _ => Raise down) (fun _ _ => Raise down)
          (fun i _ _ _ => match i with 0 => Ok tt | _ => Raise refused end).

Lemma refused_attachment_ends_batch_witness :
  OutGcp.attach_all (chat_full two_jpegs) (ask "cat") (str "cat") 0 [jpeg [Byte.x00]]
  = ([attached (str "cat_image_1.jpg") [Byte.x00]], Ok tt)
  /\ OutGcp.get_response (chat_full two_jpegs) (ask "cat")
     = ([generating (str "cat") 1; attached (str "cat_image_1.jpg") [Byte.x00];
         response (str "Error: 413 Payload Too Large")], Ok tt).
Proof.
  split; [reflexivity|].
  exact (refused_attachment_ends_batch (chat_full two_jpegs) (ask "cat") (str "cat")
           [jpeg [Byte.x00]] (jpeg [Byte.x01]) [] [Byte.x01] _ refused
           eq_refl ltac:(discriminate) eq_refl eq_refl eq_refl eq_refl eq_refl).
Defined.

(** ** Handlers that do not raise *)

(** The model, [save] and the chat raise instances of [Exception] only.
    Nothing is asked of the bucket and of the signer. *)
Record only_Exceptions (w : World) : Prop := mkOnly {
  only_generate :
    forall prompt n e, generate_images w prompt n = Raise e -> is_Exception e = true;
  only_save :
    forall prompt n images img pil e,
      generate_images w prompt n = Ok images -> In img images ->
      _pil_image img = Some pil -> save pil = Raise e -> is_Exception e = true;
  only_post :
    forall index mid data filename e,
      post_message_attachment w index mid data filename = Raise e ->
      is_Exception e = true }.

(** Extra X14: when the model, [save] and the chat raise instances of
    [Exception] only, the first handler never raises, whatever the request
    and whatever the bucket and the signer raise: the bare [except] of the
    loop takes everything that they raise. *)
Theorem handler_never_raises (w : World) (request : QueryRequest) :
  only_Exceptions w ->
  exists tr, GCS.get_response w request = (tr, Ok tt).
Proof.
  intros [Hg Hs Hp]. unfold GCS.get_response.
  destruct (GCS.body w request) as [tr [[]|e]] eqn:B; [exists tr; reflexivity|].
  exists (tr ++ [response (error_text e)]). apply try_Exception.
  destruct (body_raises _ _ _ _ B)
    as [[_ ->]|(prompt & _ & [Q|[G|(images & tr' & G & P)]])].
  - reflexivity.
  - apply (parse_directive_Exception _ _ Q).
  - apply (Hg _ _ _ G).
  - destruct (publish_all_raises _ _ _ _ _ _ _ _ P)
      as (i & img & pil & Hn & Hi & [S|(data & _ & Q)]).
    + apply (Hs _ _ _ _ _ _ G (nth_error_In _ _ Hn) Hi S).
    + apply (Hp _ _ _ _ _ Q).
Qed.

Lemma handler_never_raises_witness :
  only_Exceptions (bucket_down two_jpegs) /\
  exists tr, GCS.get_response (bucket_down two_jpegs) (ask "cat") = (tr, Ok tt).
Proof.
  assert (O : only_Exceptions (bucket_down two_jpegs)).
  { constructor.
    - intros prompt n e H. discriminate H.
    - intros prompt n images img pil e G I P S. injection G as <-.
      destruct I as [<-|[<-|[]]]; injection P as <-; discriminate S.
    - intros index mid data filename e H. discriminate H. }
  split; [exact O|].
  exact (handler_never_raises (bucket_down two_jpegs) (ask "cat") O).
Defined.

(** ** What the parser keeps of the prompt *)

Lemma re_sub_incl s : incl (re_sub s) s.
Proof.
  unfold re_sub. funelim (re_split s).
  - destruct (re_search_directive _ _ E) as (d & _ & Q).
    cbn [concat]. intros c I. rewrite Q.
    apply in_app_or in I as [I|I]; apply in_or_app; [left; exact I|right].
    apply in_or_app. right. apply H, I.
  - cbn [concat]. rewrite app_nil_r. apply incl_refl.
Qed.

(** Extra X15: the parser adds nothing to the prompt.  Every character of
    the cleaned prompt is a character of the prompt, the cleaned prompt is
    never longer than the prompt, and it is at least twenty characters
    shorter when the prompt holds a directive. *)
Theorem cleaned_within_prompt (prompt : pystr) :
  incl (cleaned prompt) prompt /\
  length (cleaned prompt) <= length prompt /\
  (has_directive prompt -> length (cleaned prompt) + 20 <= length prompt).
Proof.
  unfold cleaned.
  destruct (re_search prompt) as [m|] eqn:E.
  - pose proof (re_sub_shorter _ _ E) as L.
    pose proof (strip_length (re_sub prompt)) as L'.
    split; [|split; [lia|intros _; lia]].
    intros c I. apply re_sub_incl, strip_incl, I.
  - split; [apply incl_refl|]. split; [lia|].
    intros H. apply re_search_complete in H. contradiction.
Qed.

(** ** The match that [re.search] returns *)

(** Extra X16: the match of [re.search] is the leftmost directive of the
    prompt with the longest run of digits: the prompt is the text before
    the match, a directive and the text after it; the pattern matches at no
    earlier position; and the text after the match does not begin with a
    digit. *)
Theorem search_finds_leftmost (s : pystr) (m : Match) :
  re_search s = Some m ->
  (exists ws1 ws2,
      s = before m ++ directive ws1 ws2 (group1 m) ++ after m /\
      directive_parts ws1 ws2 (group1 m)) /\
  (forall k, k < length (before m) -> match_here (skipn k s) = None) /\
  ~ has_directive (before m) /\
  (forall c r, after m = c :: r -> is_digit c = false).
Proof.
  intros E.
  destruct (re_search_sound _ _ E) as (ws1 & ws2 & Q & P & D).
  split; [exists ws1, ws2; auto|]. split; [apply re_search_leftmost, E|].
  split; [apply re_search_None_iff, (re_search_before _ _ E)|exact D].
Qed.

Lemma search_finds_leftmost_witness :
  re_search cat_in_space = Some (mkMatch (str "a cat ") (str "7") (str " in space")) /\
  match_here (skipn 3 cat_in_space) = None.
Proof.
  assert (E : re_search cat_in_space
              = Some (mkMatch (str "a cat ") (str "7") (str " in space")))
    by (vm_compute; reflexivity).
  split; [exact E|].
  apply (proj1 (proj2 (search_finds_leftmost cat_in_space _ E))).
  vm_compute. lia.
Defined.
